(** * peer-ai-loop: the review orchestrator, in Rocq

    A shallow embedding of the Python sources
    - [ai_clients.py]  (AIResponse, the three client classes, create_client),
    - [reviewer.py]    (ParallelReviewer.review_code),
    - [aggregator.py]  (ReviewAggregator.aggregate / find_common_themes),
    - [main.py]        (run_review_workflow, the reviewer filter of main),
    - [singleton.py]   (Singleton),
    together with the properties the specification states about them.

    Conventions.  A Python [str] is a Rocq [string] holding its UTF-8
    bytes; a file is the [string] of its bytes; a [dict] keyed by strings
    is a [gmap string _]; a function that can raise returns [Result] or
    an outcome type; what the Python runtime and the operating system
    decide (the agent processes, the temporary names, the writes that
    fail, [str.lower]) is a [Runtime] the definitions take.  The platform
    is POSIX: writing text leaves line ends as they are, reading it
    translates them.

    Boundaries.  The review calls run concurrently: each is given by the
    time at which it settles, and [asyncio.gather] / [asyncio.wait_for]
    are modelled on those times; their writes to the file system are not
    tracked.  The calls of the other phases are awaited one at a time and
    thread the file system.  The console is modelled by the data of each
    message, not its markup; the progress spinners are left out.  [main]
    starts from the parsed configuration and the split reviewer list.
    [Singleton] is modelled for one thread. *)

From Stdlib Require Import PrimFloat.
From stdpp Require Import gmap strings list fin_maps pretty.

Local Open Scope string_scope.
Local Open Scope list_scope.
Local Open Scope nat_scope.

(** ** ai_clients.py: the response envelope *)

(** [AIResponse]: the dataclass returned by every agent call. *)
Record AIResponse := mkAIResponse {
  success : bool;
  output : string;
  errors : option string;
  execution_time : float;
  model : string;
  ai_name : string
}.

(** ** ai_clients.py: processes, clients, prompts

    Exceptions that the modelled code can raise. *)
Inductive Exn :=
  | KeyError (key : string)
  | ValueError (msg : string)
  | OSError (msg : string).

(** A computation that returns or raises. *)
Inductive Result (A : Type) :=
  | Ok (a : A)
  | Raise (e : Exn).
Arguments Ok {A} a.
Arguments Raise {A} e.

Definition rbind {A B} (m : Result A) (k : A → Result B) : Result B :=
  match m with
  | Ok a => k a
  | Raise e => Raise e
  end.

Notation "x ←? m ; k" := (rbind m (λ x, k))
  (at level 20, m at level 100, k at level 200, right associativity,
   format "x  ←?  m ;  '/' k").

(** The file system: path to content. *)
Abbreviation FS := (gmap string string).

(** What [process.communicate()] hands back: return code, stdout, stderr. *)
Record Completed := mkCompleted {
  returncode : Z;
  stdout : string;
  stderr : string
}.

(** One run of [_run_subprocess], as the operating system decides it:
    the process exits at time [t] (milliseconds after it was started),
    leaving the file system [fs'], with [elapsed] the measured
    [time.time() - start]; or spawning it raises; or it never exits. *)
Inductive Proc :=
  | Exits (t : Z) (c : Completed) (elapsed : float) (fs' : FS)
  | SpawnFails (t : Z) (e : Exn)
  | Blocks.

(** An awaited client call: it returns, it raises, or it never settles. *)
Inductive Awaited (A : Type) :=
  | Returns (t : Z) (a : A) (fs' : FS)
  | Raises (t : Z) (e : Exn) (fs' : FS)
  | Never.
Arguments Returns {A} t a fs'.
Arguments Raises {A} t e fs'.
Arguments Never {A}.

(** One entry [config['ai'][name]] of the TOML configuration: the truth
    value of its key [enabled] ([None] when the entry has no such key)
    and its string-valued keys. *)
Record AIConfig := mkAIConfig {
  enabled : option bool;
  settings : gmap string string
}.

(** [d[k]] on a dictionary of strings. *)
Definition getitem (d : gmap string string) (k : string) : Result string :=
  match d !! k with
  | Some v => Ok v
  | None => Raise (KeyError k)
  end.

Inductive ClientClass := GeminiClient | ClaudeClient | CodexClient.

(** A client object: its class and the two fields of [BaseAIClient]. *)
Record BaseAIClient := mkClient {
  cls : ClientClass;
  config : AIConfig;
  name : string
}.

(** How writing a file can go wrong: [open] raises and the file system
    stays as it is, or a write raises once the file is created or
    truncated, and the file holds what was written until then. *)
Inductive WriteFault :=
  | OpenFails (e : Exn)
  | WriteFails (written : string) (e : Exn).

(** What the Python runtime and the operating system provide. *)
Record Runtime := mkRuntime {
  (** [str.lower] *)
  str_lower : string → string;
  (** the path [tempfile.NamedTemporaryFile] picks, given the suffix *)
  mktemp : FS → string → string;
  (** whether writing a content to a path fails, and how *)
  write_fault : FS → string → string → option WriteFault;
  (** [str(e)] of the exception raised by reading an unreadable path *)
  strerror : FS → string → string;
  (** running a command line *)
  exec : list string → FS → Proc
}.

(** *** Reading and writing text files *)

Definition byte_in (lo hi : nat) (c : Ascii.ascii) : bool :=
  (lo <=? Ascii.nat_of_ascii c) && (Ascii.nat_of_ascii c <=? hi).

(** The bytes are well-formed UTF-8, as the strict decoder of Python
    accepts them: no overlong form, no surrogate, nothing above U+10FFFF. *)
Fixpoint utf8_valid (s : string) : bool :=
  match s with
  | EmptyString => true
  | String c0 s1 =>
      if byte_in 0 127 c0 then utf8_valid s1
      else
        match s1 with
        | EmptyString => false
        | String c1 s2 =>
            if byte_in 194 223 c0 then byte_in 128 191 c1 && utf8_valid s2
            else
              match s2 with
              | EmptyString => false
              | String c2 s3 =>
                  if byte_in 224 239 c0
                  then (if byte_in 224 224 c0 then byte_in 160 191 c1
                        else if byte_in 237 237 c0 then byte_in 128 159 c1
                        else byte_in 128 191 c1)
                       && byte_in 128 191 c2 && utf8_valid s3
                  else
                    match s3 with
                    | EmptyString => false
                    | String c3 s4 =>
                        byte_in 240 244 c0
                        && (if byte_in 240 240 c0 then byte_in 144 191 c1
                            else if byte_in 244 244 c0 then byte_in 128 143 c1
                            else byte_in 128 191 c1)
                        && byte_in 128 191 c2 && byte_in 128 191 c3 && utf8_valid s4
                    end
              end
        end
  end.

Definition carriage_return : Ascii.ascii := Ascii.ascii_of_nat 13.
Definition line_feed : Ascii.ascii := Ascii.ascii_of_nat 10.

(** Universal newlines, the default of [open(path, 'r')]: a carriage
    return, with the line feed after it if there is one, is read as one
    line feed. *)
Fixpoint universal_newlines (s : string) : string :=
  match s with
  | EmptyString => EmptyString
  | String c s' =>
      if decide (c = carriage_return)
      then String line_feed
             match s' with
             | EmptyString => EmptyString
             | String c' s'' =>
                 if decide (c' = line_feed) then universal_newlines s''
                 else universal_newlines s'
             end
      else String c (universal_newlines s')
  end.

(** [open(path, 'r', encoding='utf-8').read()]; [None] when it raises:
    there is no such file, or its bytes are not UTF-8. *)
Definition read_text (fs : FS) (path : string) : option string :=
  match fs !! path with
  | Some bytes => if utf8_valid bytes then Some (universal_newlines bytes) else None
  | None => None
  end.

Section Clients.
Variable rt : Runtime.

(** [with open(path, 'w', encoding='utf-8') as f: f.write(content)]: the
    exception it raises, if any, and the file system it leaves. *)
Definition write_file (path content : string) (fs : FS) : option Exn * FS :=
  match write_fault rt fs path content with
  | None => (None, <[path := content]> fs)
  | Some (OpenFails e) => (Some e, fs)
  | Some (WriteFails written e) => (Some e, <[path := written]> fs)
  end.

(** [BaseAIClient._build_context] *)
Definition _build_context (context_files : list string) (fs : FS) : string :=
  match context_files with
  | [] => ""
  | _ =>
      let part file_path :=
        match read_text fs file_path with
        | Some content => "
--- " +:+ file_path +:+ " ---
" +:+ content +:+ "
"
        | None => "
--- " +:+ file_path +:+ " (读取失败: " +:+ strerror rt fs file_path +:+ ") ---
"
        end in
      String.concat "
" ("相关上下文文件：
" :: map part context_files)
  end.

(** [cmd.insert(1, self.config['skip_permissions'])] when configured. *)
Definition with_skip_permissions (config : AIConfig) (cmd : list string) : list string :=
  match settings config !! "skip_permissions" with
  | Some flag => take 1 cmd ++ flag :: drop 1 cmd
  | None => cmd
  end.

(** The command line of a Gemini call. *)
Definition gemini_cmd (config : AIConfig) (text : string) : Result (list string) :=
  command ←? getitem (settings config) "command";
  model ←? getitem (settings config) "model";
  prompt_flag ←? getitem (settings config) "prompt_flag";
  Ok (with_skip_permissions config [command; "--model"; model; prompt_flag; text]).

(** The command line of a Claude call. *)
Definition claude_cmd (config : AIConfig) (text : string) : Result (list string) :=
  command ←? getitem (settings config) "command";
  Ok (with_skip_permissions config [command; "-p"; text]).

(** The [AIResponse(...)] both clients build from a finished process. *)
Definition response_of (c : Completed) (elapsed : float) (model name : string) : AIResponse :=
  {| success := bool_decide (returncode c = 0%Z);
     output := stdout c;
     errors := if bool_decide (returncode c ≠ 0%Z) then Some (stderr c) else None;
     execution_time := elapsed;
     model := model;
     ai_name := name |}.

(** Build the command, run it, wrap the outcome. *)
Definition run_and_wrap (cmd : Result (list string)) (model name : string) (fs : FS)
    : Awaited AIResponse :=
  match cmd with
  | Raise e => Raises 0%Z e fs
  | Ok cmd =>
      match exec rt cmd fs with
      | Exits t c elapsed fs' => Returns t (response_of c elapsed model name) fs'
      | SpawnFails t e => Raises t e fs
      | Blocks => Never
      end
  end.

Definition gemini_model (config : AIConfig) : string :=
  default "gemini" (settings config !! "model").

Definition codex_disabled (name : string) : AIResponse :=
  {| success := false;
     output := "";
     errors := Some "Codex is currently disabled (API key issue)";
     execution_time := 0%float;
     model := "codex";
     ai_name := name |}.

Definition gemini_implement_prompt (context prompt : string) : string :=
  context +:+ "

请实现以下需求：
" +:+ prompt +:+ "

请直接输出代码实现，包含必要的注释。".

Definition claude_task_content (context prompt : string) : string :=
  context +:+ "

## 任务
" +:+ prompt +:+ "

请实现以上需求，直接输出代码。".

(** [implement]: Claude writes the task into a temporary file and, once
    it is written, runs the agent in a [try] whose [finally] clause
    unlinks the file. *)
Definition implement (self : BaseAIClient) (prompt : string)
    (context_files : list string) (fs : FS) : Awaited AIResponse :=
  match cls self with
  | GeminiClient =>
      let context := _build_context context_files fs in
      let full_prompt := gemini_implement_prompt context prompt in
      run_and_wrap (gemini_cmd (config self) full_prompt)
        (gemini_model (config self)) (name self) fs
  | ClaudeClient =>
      let context := _build_context context_files fs in
      let task_file := mktemp rt fs ".md" in
      match write_file task_file (claude_task_content context prompt) fs with
      | (Some e, fs1) => Raises 0%Z e fs1
      | (None, fs1) =>
          let cmd := claude_cmd (config self)
                       ("读取 " +:+ task_file +:+ " 并实现其中描述的功能") in
          match run_and_wrap cmd "claude" (name self) fs1 with
          | Returns t a fs2 => Returns t a (delete task_file fs2)
          | Raises t e fs2 => Raises t e (delete task_file fs2)
          | Never => Never
          end
      end
  | CodexClient => Returns 0%Z (codex_disabled (name self)) fs
  end.

Definition gemini_review_prompt (context original_prompt code : string) : string :=
  context +:+ "

原始需求：" +:+ original_prompt +:+ "

生成的代码：
```
" +:+ code +:+ "
```

请作为代码审查专家，审查以上代码并提供：
1. 代码质量评估
2. 潜在的 bug 或问题
3. 安全性考虑
4. 性能优化建议
5. 改进建议（如有）

请用清晰的结构化格式输出审查意见。".

Definition claude_review_prompt (context original_prompt code : string) : string :=
  context +:+ "

原始需求：" +:+ original_prompt +:+ "

生成的代码：
```
" +:+ code +:+ "
```

作为专业的代码审查者，请审查以上代码：
1. 正确性：代码是否正确实现了需求？
2. 代码质量：是否遵循最佳实践？
3. 潜在问题：是否有 bug、安全漏洞或性能问题？
4. 改进建议：如何优化这段代码？

请提供详细的审查报告。".

(** [review] *)
Definition review (self : BaseAIClient) (code original_prompt context : string)
    (fs : FS) : Awaited AIResponse :=
  match cls self with
  | GeminiClient =>
      run_and_wrap
        (gemini_cmd (config self) (gemini_review_prompt context original_prompt code))
        (gemini_model (config self)) (name self) fs
  | ClaudeClient =>
      run_and_wrap
        (claude_cmd (config self) (claude_review_prompt context original_prompt code))
        "claude" (name self) fs
  | CodexClient => Returns 0%Z (codex_disabled (name self)) fs
  end.

Definition improve_prompt (original_prompt review_output file_path : string) : string :=
  "你之前审查了这段代码，现在请根据你的审查建议直接改进它。

原始需求：" +:+ original_prompt +:+ "

你的审查意见：
" +:+ review_output +:+ "

请直接编辑文件 " +:+ file_path +:+ "，根据你的建议改进代码。不要只是给建议，要实际修改文件。".

(** [hasattr(reviewer, 'improve_file')]: CodexClient does not define it. *)
Definition has_improve_file (self : BaseAIClient) : bool :=
  match cls self with
  | GeminiClient | ClaudeClient => true
  | CodexClient => false
  end.

(** [improve_file]; [None] is the missing attribute. *)
Definition improve_file (self : BaseAIClient)
    : option (string → string → string → FS → Awaited AIResponse) :=
  match cls self with
  | GeminiClient => Some (λ file_path review_output original_prompt fs,
      run_and_wrap
        (gemini_cmd (config self) (improve_prompt original_prompt review_output file_path))
        (gemini_model (config self)) (name self) fs)
  | ClaudeClient => Some (λ file_path review_output original_prompt fs,
      run_and_wrap
        (claude_cmd (config self) (improve_prompt original_prompt review_output file_path))
        "claude" (name self) fs)
  | CodexClient => None
  end.

(** [create_client] *)
Definition create_client (ai_name : string) (config : AIConfig) : Result BaseAIClient :=
  let key := str_lower rt ai_name in
  if decide (key = "gemini") then Ok (mkClient GeminiClient config ai_name)
  else if decide (key = "claude") then Ok (mkClient ClaudeClient config ai_name)
  else if decide (key = "codex") then Ok (mkClient CodexClient config ai_name)
  else Raise (ValueError ("Unknown AI: " +:+ ai_name)).
End Clients.

(** ** reviewer.py

    Times are in milliseconds from the moment the review tasks are
    started; [timeout_seconds] is the constructor argument. *)

Record ParallelReviewer := mkParallelReviewer {
  timeout_seconds : Z
}.

(** What [review_code] prints. *)
Inductive Diagnostic :=
  | ReviewFailed (ai_name : string) (errors : option string)
  | ReviewRaised (e : Exn)
  | ReviewTimedOut (timeout_seconds : Z).

(** [asyncio.gather] with [return_exceptions=True]: settles when the last
    task has settled, with the results (values or exception objects) in
    task order; it never settles when one task never does. *)
Fixpoint gather (tasks : list (Awaited AIResponse)) : option (Z * list (Result AIResponse)) :=
  match tasks with
  | [] => Some (0%Z, [])
  | task :: rest =>
      match task, gather rest with
      | Returns t a _, Some (t', rs) => Some (Z.max t t', Ok a :: rs)
      | Raises t e _, Some (t', rs) => Some (Z.max t t', Raise e :: rs)
      | _, _ => None
      end
  end.

(** [asyncio.wait_for(fut, timeout)]: the results, or [None] for
    [asyncio.TimeoutError].  With a timeout that is not positive only a
    future that is already done (no task at all) is returned.  A batch
    whose last task settles exactly at the deadline counts as in time. *)
Definition wait_for (tasks : list (Awaited AIResponse)) (timeout : Z)
    : option (list (Result AIResponse)) :=
  if decide (timeout ≤ 0)%Z
  then match tasks with [] => Some [] | _ => None end
  else match gather tasks with
       | Some (t, reviews) => if decide (t ≤ 1000 * timeout)%Z then Some reviews else None
       | None => None
       end.

(** The [for review in reviews] loop of [review_code]. *)
Fixpoint collect_successful (successful_reviews : list AIResponse)
    (printed : list Diagnostic) (reviews : list (Result AIResponse))
    : list AIResponse * list Diagnostic :=
  match reviews with
  | [] => (successful_reviews, printed)
  | Ok review :: rest =>
      if success review
      then collect_successful (successful_reviews ++ [review]) printed rest
      else collect_successful successful_reviews
             (printed ++ [ReviewFailed (ai_name review) (errors review)]) rest
  | Raise e :: rest =>
      collect_successful successful_reviews (printed ++ [ReviewRaised e]) rest
  end.

Section Reviewer.
Variable rt : Runtime.

(** The list [tasks] built at the start of [review_code]. *)
Definition review_tasks (implementation : AIResponse) (reviewers : list BaseAIClient)
    (original_prompt context : string) (fs : FS) : list (Awaited AIResponse) :=
  (λ reviewer, review rt reviewer (output implementation) original_prompt context fs)
    <$> reviewers.

(** [ParallelReviewer.review_code]: the returned list and what was printed. *)
Definition review_code (self : ParallelReviewer) (implementation : AIResponse)
    (reviewers : list BaseAIClient) (original_prompt context : string) (fs : FS)
    : list AIResponse * list Diagnostic :=
  let tasks := review_tasks implementation reviewers original_prompt context fs in
  match wait_for tasks (timeout_seconds self) with
  | Some reviews => collect_successful [] [] reviews
  | None => ([], [ReviewTimedOut (timeout_seconds self)])
  end.
End Reviewer.

(** ** aggregator.py *)

(** [ReviewSummary]: [reviews_by_ai] maps an agent name to its review text. *)
Record ReviewSummary := mkReviewSummary {
  total_reviews : nat;
  successful_reviews : nat;
  reviews_by_ai : gmap string string
}.

(** The body of the [for review in reviews] loop of [aggregate], started
    from the dictionary built so far. *)
Fixpoint aggregate_loop (reviews_by_ai : gmap string string)
    (reviews : list AIResponse) : gmap string string :=
  match reviews with
  | [] => reviews_by_ai
  | review :: rest =>
      if success review
      then aggregate_loop (<[ai_name review := output review]> reviews_by_ai) rest
      else aggregate_loop reviews_by_ai rest
  end.

(** [ReviewAggregator.aggregate]. *)
Definition aggregate (reviews : list AIResponse) : ReviewSummary :=
  let reviews_by_ai := aggregate_loop ∅ reviews in
  {| total_reviews := length reviews;
     successful_reviews := size reviews_by_ai;
     reviews_by_ai := reviews_by_ai |}.

(** *** find_common_themes

    Python's [str.lower] is a builtin, not code of this repository: it is a
    parameter [lower] of the definitions below.  [str_in needle hay] is the
    operator [needle in hay] on strings. *)

Fixpoint startswith (needle hay : string) : bool :=
  match needle, hay with
  | EmptyString, _ => true
  | String _ _, EmptyString => false
  | String a needle', String b hay' =>
      if decide (a = b) then startswith needle' hay' else false
  end.

Fixpoint str_in (needle hay : string) : bool :=
  startswith needle hay ||
  match hay with
  | EmptyString => false
  | String _ hay' => str_in needle hay'
  end.

(** The fixed keyword list, in source order. *)
Definition keywords : list string :=
  ["bug"; "错误"; "error"; "issue"; "问题";
   "security"; "安全"; "performance"; "性能";
   "optimize"; "优化"; "improve"; "改进"].

Section Themes.
Variable lower : string → string.

(** The condition [keyword.lower() in r.output.lower()]. *)
Definition mentions (keyword : string) (r : AIResponse) : bool :=
  str_in (lower keyword) (lower (output r)).

(** [sum(1 for r in reviews if keyword.lower() in r.output.lower())]. *)
Definition count_mentions (keyword : string) (reviews : list AIResponse) : nat :=
  fold_left (λ acc r, if mentions keyword r then acc + 1 else acc) reviews 0.

(** The f-string [f"{keyword} (提到 {count} 次)"]. *)
Definition theme (keyword : string) (count : nat) : string :=
  keyword +:+ " (提到 " +:+ pretty count +:+ " 次)".

(** The [for keyword in keywords] loop, started from the themes
    appended so far. *)
Fixpoint themes_loop (common_themes : list string) (kws : list string)
    (reviews : list AIResponse) : list string :=
  match kws with
  | [] => common_themes
  | keyword :: rest =>
      let count := count_mentions keyword reviews in
      if decide (2 ≤ count)%nat
      then themes_loop (common_themes ++ [theme keyword count]) rest reviews
      else themes_loop common_themes rest reviews
  end.

(** [ReviewAggregator.find_common_themes]. *)
Definition find_common_themes (reviews : list AIResponse) : list string :=
  themes_loop [] keywords reviews.
End Themes.

(** ASCII case folding: what [str.lower] does on strings whose cased
    characters are all ASCII (bytes of multi-byte UTF-8 sequences are
    left as they are). *)
Definition ascii_lower_char (c : Ascii.ascii) : Ascii.ascii :=
  let n := Ascii.nat_of_ascii c in
  if decide (65 ≤ n ∧ n ≤ 90)%nat then Ascii.ascii_of_nat (n + 32) else c.

Fixpoint ascii_lower (s : string) : string :=
  match s with
  | EmptyString => EmptyString
  | String c s' => String (ascii_lower_char c) (ascii_lower s')
  end.

(** ** main.py *)

(** The parsed TOML configuration: [config['ai']] and [config['execution']]. *)
Record Config := mkConfig {
  ai : gmap string AIConfig;
  execution : gmap string Z
}.

(** The keyword arguments of [MarkdownReporter.generate]. *)
Record ReportArgs := mkReportArgs {
  report_prompt : string;
  report_implementation : AIResponse;
  report_reviews : ReviewSummary;
  report_common_themes : list string;
  report_improvements : option (gmap string string);
  report_final_code : option string
}.

(** What the workflow prints, message by message (the data, not the markup). *)
Inductive Message :=
  | MsgInitFailed (e : Exn)
  | MsgImplementing (implementer_name : string)
  | MsgImplementFailed (errors : option string)
  | MsgImplemented (implementation : AIResponse)
  | MsgReviewing (reviewer_names : list string)
  | MsgDiagnostic (d : Diagnostic)
  | MsgReviewed (succeeded total : nat)
  | MsgImprovementPhase
  | MsgSavedTo (code_file : string)
  | MsgImproving (ai_name : string)
  | MsgImproved (ai_name : string) (improved : AIResponse)
  | MsgImproveFailed (ai_name : string) (errors : option string)
  | MsgReporting
  | MsgReportSaved (output_path : string)
  | MsgReport (report : string)
  | MsgDone (summary : ReviewSummary)
  | MsgImprovedCount (n : nat).

(** The world a run acts on: the files and the console, and two
    observation logs that the program itself cannot read: the
    [improve_file] calls that were started (reviewer name and file) and
    the responses those calls returned, both in order. *)
Record World := mkWorld {
  fs : FS;
  console : list Message;
  improve_calls : list (string * string);
  improve_returns : list AIResponse
}.

Definition print (m : Message) (w : World) : World :=
  {| fs := fs w; console := console w ++ [m];
     improve_calls := improve_calls w; improve_returns := improve_returns w |}.

Definition set_fs (fs' : FS) (w : World) : World :=
  {| fs := fs'; console := console w;
     improve_calls := improve_calls w; improve_returns := improve_returns w |}.

Definition log_improve_call (who file_path : string) (w : World) : World :=
  {| fs := fs w; console := console w;
     improve_calls := improve_calls w ++ [(who, file_path)];
     improve_returns := improve_returns w |}.

Definition log_improve_return (improved : AIResponse) (w : World) : World :=
  {| fs := fs w; console := console w;
     improve_calls := improve_calls w;
     improve_returns := improve_returns w ++ [improved] |}.

(** How a piece of the workflow ends: normally with a value, by an
    exception that propagates, or never (awaiting a call that never
    settles). *)
Inductive Flow (A : Type) :=
  | Normal (a : A) (w : World)
  | Propagates (e : Exn) (w : World)
  | Diverges.
Arguments Normal {A} a w.
Arguments Propagates {A} e w.
Arguments Diverges {A}.

(** The three ways [run_review_workflow] returns. *)
Inductive Outcome :=
  | InitFailed
  | ImplementationFailed
  | Finished (report : ReportArgs) (improvement_logs : gmap string string).

Section Workflow.
Variable rt : Runtime.
(** [MarkdownReporter.generate], which also reads the clock. *)
Variable generate : ReportArgs → string.

(** [[create_client(name, config['ai'][name]) for name in reviewer_names]] *)
Fixpoint create_clients (config : Config) (names : list string) : Result (list BaseAIClient) :=
  match names with
  | [] => Ok []
  | name :: rest =>
      match ai config !! name with
      | None => Raise (KeyError name)
      | Some entry =>
          client ←? create_client rt name entry;
          clients ←? create_clients config rest;
          Ok (client :: clients)
      end
  end.

(** The [for review in review_results] loop of phase 3. *)
Fixpoint improve_loop (reviewers : list BaseAIClient) (code_file prompt : string)
    (review_results : list AIResponse) (improvement_logs : gmap string string)
    (w : World) : Flow (gmap string string) :=
  match review_results with
  | [] => Normal improvement_logs w
  | review :: rest =>
      match List.find (λ r, bool_decide (name r = ai_name review)) reviewers with
      | None => improve_loop reviewers code_file prompt rest improvement_logs w
      | Some reviewer =>
          match improve_file rt reviewer with
          | None => improve_loop reviewers code_file prompt rest improvement_logs w
          | Some call =>
              let w := print (MsgImproving (ai_name review)) w in
              let w := log_improve_call (name reviewer) code_file w in
              match call code_file (output review) prompt (fs w) with
              | Returns _ improved fs' =>
                  let w := log_improve_return improved (set_fs fs' w) in
                  if success improved
                  then improve_loop reviewers code_file prompt rest
                         (<[ai_name review := output improved]> improvement_logs)
                         (print (MsgImproved (ai_name review) improved) w)
                  else improve_loop reviewers code_file prompt rest improvement_logs
                         (print (MsgImproveFailed (ai_name review) (errors improved)) w)
              | Raises _ e fs' => Propagates e (set_fs fs' w)
              | Never => Diverges
              end
          end
      end
  end.

(** Phase 3, the body of [if enable_iteration and review_results]: the
    logs and [final_improved_code]. *)
Definition improvement_phase (implementation : AIResponse) (reviewers : list BaseAIClient)
    (prompt : string) (review_results : list AIResponse) (w : World)
    : Flow (gmap string string * option string * string) :=
  let w := print MsgImprovementPhase w in
  let code_file := mktemp rt (fs w) ".py" in
  match write_file rt code_file (output implementation) (fs w) with
  | (Some e, fs1) => Propagates e (set_fs fs1 w)
  | (None, fs1) =>
      let w := set_fs fs1 w in
      let w := print (MsgSavedTo code_file) w in
      match improve_loop reviewers code_file prompt review_results ∅ w with
      | Normal improvement_logs w =>
          let final_improved_code := read_text (fs w) code_file in
          Normal (improvement_logs, final_improved_code, code_file) w
      | Propagates e w => Propagates e w
      | Diverges => Diverges
      end
  end.

(** Phase 4: aggregate, render, save or print. *)
Definition report_phase (prompt : string) (implementation : AIResponse)
    (review_results : list AIResponse) (improvement_logs : gmap string string)
    (final_improved_code : option (option string)) (output_path : option string)
    (enable_iteration : bool) (w : World) : Flow Outcome :=
  let w := print MsgReporting w in
  let summary := aggregate review_results in
  let common_themes := find_common_themes (str_lower rt) review_results in
  let args :=
    {| report_prompt := prompt;
       report_implementation := implementation;
       report_reviews := summary;
       report_common_themes := common_themes;
       report_improvements := if enable_iteration then Some improvement_logs else None;
       report_final_code :=
         if enable_iteration
         then match final_improved_code with Some code => code | None => None end
         else None |} in
  let report := generate args in
  let finish w :=
    let w := print (MsgDone summary) w in
    let w := if decide (improvement_logs = ∅) then w
             else print (MsgImprovedCount (size improvement_logs)) w in
    Normal (Finished args improvement_logs) w in
  match output_path with
  | Some path =>
      if decide (path = "") then finish (print (MsgReport report) w)
      else
        match write_file rt path report (fs w) with
        | (Some e, fs1) => Propagates e (set_fs fs1 w)
        | (None, fs1) => finish (print (MsgReportSaved path) (set_fs fs1 w))
        end
  | None => finish (print (MsgReport report) w)
  end.

(** [run_review_workflow] *)
Definition run_review_workflow (prompt implementer_name : string)
    (reviewer_names context_files : list string) (output_path : option string)
    (config : Config) (enable_iteration : bool) (w : World) : Flow Outcome :=
  let init :=
    match ai config !! implementer_name with
    | None => Raise (KeyError implementer_name)
    | Some entry =>
        implementer ←? create_client rt implementer_name entry;
        reviewers ←? create_clients config reviewer_names;
        Ok (implementer, reviewers)
    end in
  match init with
  | Raise e => Normal InitFailed (print (MsgInitFailed e) w)
  | Ok (implementer, reviewers) =>
      let context :=
        match context_files with
        | [] => ""
        | _ => String.concat "
" (map (λ f, "文件: " +:+ f) context_files)
        end in
      let w := print (MsgImplementing implementer_name) w in
      match implement rt implementer prompt context_files (fs w) with
      | Never => Diverges
      | Raises _ e fs' => Propagates e (set_fs fs' w)
      | Returns _ implementation fs' =>
          let w := set_fs fs' w in
          if negb (success implementation)
          then Normal ImplementationFailed
                 (print (MsgImplementFailed (errors implementation)) w)
          else
            let w := print (MsgImplemented implementation) w in
            let w := print (MsgReviewing reviewer_names) w in
            match execution config !! "timeout_seconds" with
            | None => Propagates (KeyError "timeout_seconds") w
            | Some timeout =>
                let parallel_reviewer := mkParallelReviewer timeout in
                let '(review_results, printed) :=
                  review_code rt parallel_reviewer implementation reviewers
                    prompt context (fs w) in
                let w := foldl (λ w d, print (MsgDiagnostic d) w) w printed in
                let w := print (MsgReviewed (length review_results) (length reviewers)) w in
                if enable_iteration && negb (bool_decide (review_results = []))
                then
                  match improvement_phase implementation reviewers prompt review_results w with
                  | Normal (improvement_logs, final_improved_code, _) w =>
                      report_phase prompt implementation review_results improvement_logs
                        (Some final_improved_code) output_path enable_iteration w
                  | Propagates e w => Propagates e w
                  | Diverges => Diverges
                  end
                else
                  report_phase prompt implementation review_results ∅ None
                    output_path enable_iteration w
            end
      end
  end.

(** [list.remove(x)]: drops the first element equal to [x]; raises
    when there is none. *)
Fixpoint list_remove (x : string) (l : list string) : Result (list string) :=
  match l with
  | [] => Raise (ValueError "list.remove(x): x not in list")
  | y :: l' =>
      if decide (x = y) then Ok l'
      else (l'' ←? list_remove x l'; Ok (y :: l''))
  end.

(** The loop [for reviewer in reviewer_list: ... reviewer_list.remove(reviewer)]
    of [main].  A Python list iterator holds an index [i] into the live
    list and stops once [i] is past its end; [warned] collects the
    reviewers a warning was printed for.  [None] means the fuel ran out. *)
Fixpoint skip_disabled_loop (fuel : nat) (cfg : Config) (i : nat)
    (reviewer_list warned : list string) : option (Result (list string * list string)) :=
  match fuel with
  | O => None
  | S fuel =>
      match reviewer_list !! i with
      | None => Some (Ok (reviewer_list, warned))
      | Some reviewer =>
          match ai cfg !! reviewer with
          | None => Some (Raise (KeyError reviewer))
          | Some entry =>
              match enabled entry with
              | None => Some (Raise (KeyError "enabled"))
              | Some true => skip_disabled_loop fuel cfg (S i) reviewer_list warned
              | Some false =>
                  match list_remove reviewer reviewer_list with
                  | Raise e => Some (Raise e)
                  | Ok reviewer_list' =>
                      skip_disabled_loop fuel cfg (S i) reviewer_list'
                        (warned ++ [reviewer])
                  end
              end
          end
      end
  end.

(** The loop run on [reviewer_list]: one step per element is enough. *)
Definition skip_disabled (cfg : Config) (reviewer_list : list string)
    : option (Result (list string * list string)) :=
  skip_disabled_loop (S (length reviewer_list)) cfg 0 reviewer_list [].

(** How [main] ends: [sys.exit(code)], an uncaught exception, or the
    workflow run on the reviewers that were kept. *)
Inductive MainOutcome :=
    | SysExit (code : Z)
    | Uncaught (e : Exn)
    | Ran (reviewer_list warned : list string) (flow : Flow Outcome).

(** [main], from the parsed configuration and the already split and
    stripped reviewer list on. *)
Definition main (prompt implementer : string) (reviewer_list context_file : list string)
    (output : option string) (cfg : Config) (no_iteration : bool) (w : World)
    : option MainOutcome :=
  match ai cfg !! implementer with
  | None => Some (Uncaught (KeyError implementer))
  | Some entry =>
      match enabled entry with
      | None => Some (Uncaught (KeyError "enabled"))
      | Some false => Some (SysExit 1)
      | Some true =>
          match skip_disabled cfg reviewer_list with
          | None => None
          | Some (Raise e) => Some (Uncaught e)
          | Some (Ok (reviewer_list, warned)) =>
              match reviewer_list with
              | [] => Some (SysExit 1)
              | _ =>
                  Some (Ran reviewer_list warned
                          (run_review_workflow prompt implementer reviewer_list
                             context_file output cfg (negb no_iteration) w))
              end
          end
      end
  end.
End Workflow.

(** ** singleton.py

    The lock only matters between threads; the model is one thread. *)
Module Singleton.

(** The values passed as [value]. *)
Inductive PyVal :=
    | PyNone
    | PyStr (s : string)
    | PyInt (z : Z).

(** An instance: each attribute is set or not. *)
Record Object := mkObject {
    value : option PyVal;
    _initialized : option bool
  }.

(** The class attribute [_instance] and the heap of instances. *)
Record State := mkState {
    _instance : option nat;
    heap : gmap nat Object
  }.

Definition initial : State := {| _instance := None; heap := ∅ |}.

(** [__new__]: allocate on the first call only. *)
Definition __new__ (st : State) : nat * State :=
  match _instance st with
  | Some self => (self, st)
  | None =>
      let self := fresh (dom (heap st)) in
      (self, {| _instance := Some self;
                heap := <[self := mkObject None None]> (heap st) |})
  end.

(** [__init__]: returns at once when [_initialized] is set and true. *)
Definition __init__ (self : nat) (v : PyVal) (st : State) : State :=
  match heap st !! self with
  | None => st
  | Some obj =>
      match _initialized obj with
      | Some true => st
      | _ => {| _instance := _instance st;
                heap := <[self := mkObject (Some v) (Some true)]> (heap st) |}
      end
  end.

(** The call [Singleton(v)]: [__new__], then [__init__] on its result. *)
Definition Singleton (v : PyVal) (st : State) : nat * State :=
  let '(self, st) := __new__ st in
  (self, __init__ self v st).

(** A sequence of calls, with the object each one returned. *)
Fixpoint calls (vs : list PyVal) (st : State) : list nat * State :=
  match vs with
  | [] => ([], st)
  | v :: vs =>
      let '(self, st) := Singleton v st in
      let '(selves, st) := calls vs st in
      (self :: selves, st)
  end.

End Singleton.

(** * Vocabulary of the specification *)

(** [last_success n o l]: the last successful response named [n] in [l]
    has output [o]. *)
Definition last_success (n o : string) (l : list AIResponse) : Prop :=
  ∃ l1 r l2, l = l1 ++ r :: l2 ∧ success r = true ∧ ai_name r = n ∧ output r = o ∧
             Forall (λ r', success r' = true → ai_name r' ≠ n) l2.

(** What [gather] collects from a settled task. *)
Definition task_result (task : Awaited AIResponse) : option (Result AIResponse) :=
  match task with
  | Returns _ a _ => Some (Ok a)
  | Raises _ e _ => Some (Raise e)
  | Never => None
  end.

(** A task has settled (returned or raised) no later than [deadline]. *)
Definition settled_by {A} (deadline : Z) (task : Awaited A) : Prop :=
  match task with
  | Returns t _ _ | Raises t _ _ => (t ≤ deadline)%Z
  | Never => False
  end.

(** A task settles within a timeout of [timeout] seconds. *)
Definition settles_within {A} (timeout : Z) (task : Awaited A) : Prop :=
  (0 < timeout)%Z ∧ settled_by (1000 * timeout) task.

(** The response of a task if it returned one with [success = true]. *)
Definition successful_response (task : Awaited AIResponse) : option AIResponse :=
  match task with
  | Returns _ a _ => if success a then Some a else None
  | _ => None
  end.

(** The agent that [next(... r.name == review.ai_name ...)] picks for a
    review exists and has the method [improve_file]. *)
Definition capable (reviewers : list BaseAIClient) (review : AIResponse) : bool :=
  match List.find (λ r, bool_decide (name r = ai_name review)) reviewers with
  | Some reviewer => has_improve_file reviewer
  | None => false
  end.

(** The bound method [reviewer.improve_file] of the agent that
    [next(...)] picks for a review, when there is such an agent and it
    has the method. *)
Definition improver (rt : Runtime) (reviewers : list BaseAIClient) (review : AIResponse)
    : option (string → string → string → FS → Awaited AIResponse) :=
  List.find (λ r, bool_decide (name r = ai_name review)) reviewers ≫= improve_file rt.

(** [improved_in_turn rt reviewers code_file prompt reviews fs done fs']:
    starting from the file system [fs], [improve_file] is invoked for
    each of [reviews], once each, in this order, every call on the file
    system that the call before it left, and every call returns; [done]
    pairs each review with the response to its call, and [fs'] is the
    file system that the last call left. *)
Inductive improved_in_turn (rt : Runtime) (reviewers : list BaseAIClient)
    (code_file prompt : string)
    : list AIResponse → FS → list (AIResponse * AIResponse) → FS → Prop :=
  | improved_nil fs : improved_in_turn rt reviewers code_file prompt [] fs [] fs
  | improved_cons review reviews call t improved fs fs1 done fs2 :
      improver rt reviewers review = Some call →
      call code_file (output review) prompt fs = Returns t improved fs1 →
      improved_in_turn rt reviewers code_file prompt reviews fs1 done fs2 →
      improved_in_turn rt reviewers code_file prompt (review :: reviews) fs
        ((review, improved) :: done) fs2.

(** What the loop prints around one call that returned. *)
Definition improve_messages (step : AIResponse * AIResponse) : list Message :=
  [MsgImproving (ai_name step.1);
   if success step.2 then MsgImproved (ai_name step.1) step.2
   else MsgImproveFailed (ai_name step.1) (errors step.2)].

(** The world a piece of the workflow leaves, when it ends. *)
Definition flow_world {A} (flow : Flow A) : option World :=
  match flow with
  | Normal _ w | Propagates _ w => Some w
  | Diverges => None
  end.

(** The paths the console announced as the saved code file. *)
Definition saved_to (console : list Message) : list string :=
  omap (λ m, match m with MsgSavedTo code_file => Some code_file | _ => None end) console.

(** The [enabled] flag of a name in the configuration, if it has an
    entry and the entry has the key. *)
Definition enabled_in (cfg : Config) (who : string) : option bool :=
  ai cfg !! who ≫= enabled.

(** The class [create_client] picks for a lower-cased name. *)
Definition client_class (key : string) : option ClientClass :=
  if decide (key = "gemini") then Some GeminiClient
  else if decide (key = "claude") then Some ClaudeClient
  else if decide (key = "codex") then Some CodexClient
  else None.

(** The invariant of the response envelope: it carries the name of the
    client that built it, and [errors] is set exactly when [success] is
    false. *)
Definition well_formed_response (who : string) (a : AIResponse) : Prop :=
  ai_name a = who ∧ (success a = true ↔ errors a = None).


(** The [enabled] flag of a listed name is false. *)
Definition disabled (cfg : Config) (who : string) : bool :=
  bool_decide (enabled_in cfg who = Some false).

(** A list as the loop of [main] leaves it, read from the left: an entry
    that is read and found disabled is dropped, and the entry after it is
    stepped over, so it stays without being read.  [unread] tells whether
    the first entry is such a stepped-over one. *)
Fixpoint stepping_filter (cfg : Config) (unread : bool) (l : list string) : list string :=
  match l with
  | [] => []
  | x :: rest =>
      if unread || negb (disabled cfg x)
      then x :: stepping_filter cfg false rest
      else stepping_filter cfg true rest
  end.

(** Whether the entry after [pre] is stepped over. *)
Fixpoint unread_after (cfg : Config) (unread : bool) (pre : list string) : bool :=
  match pre with
  | [] => unread
  | x :: rest => unread_after cfg (negb unread && disabled cfg x) rest
  end.

(** The number of disabled reviewers in a row at the head of a list. *)
Fixpoint leading_disabled (cfg : Config) (l : list string) : nat :=
  match l with
  | [] => 0
  | x :: rest => if disabled cfg x then S (leading_disabled cfg rest) else 0
  end.

(** The number of disabled reviewers in a row directly before the entry
    that follows [pre]: that entry is the next one of their run. *)
Definition disabled_run_before (cfg : Config) (pre : list string) : nat :=
  leading_disabled cfg (rev pre).

(** * Scenarios

    Concrete inputs on which the properties below are evaluated. *)

Definition response (ok : bool) (out who : string) : AIResponse :=
  {| success := ok; output := out; errors := None;
     execution_time := 1%float; model := who; ai_name := who |}.

(** Two reviews that mention security (in different case), one that
    mentions performance. *)
Definition security_reviews : list AIResponse :=
  [ response true "Found a SECURITY hole in the login handler." "claude";
    response true "security: inputs are not validated; Performance is fine." "gemini";
    response true "Nothing to add." "codex" ].

(** A runtime for the scenarios: ASCII case folding, a temporary name
    numbered by the size of the file system, and two installed agents:
    [gemini] answers after one second, [claude] never answers. *)
Definition slow_claude_exec (cmd : list string) (fs : FS) : Proc :=
  match cmd with
  | "gemini" :: _ => Exits 1000 (mkCompleted 0 "LGTM" "") 1%float fs
  | "claude" :: _ => Blocks
  | _ => SpawnFails 0 (OSError "[Errno 2] No such file or directory")
  end.

Definition scenario_runtime (exec : list string → FS → Proc) : Runtime :=
  {| str_lower := ascii_lower;
     mktemp := λ fs suffix, "/tmp/tmp" +:+ pretty (size fs) +:+ suffix;
     write_fault := λ _ _ _, None;
     strerror := λ _ path, "[Errno 2] No such file or directory: '" +:+ path +:+ "'";
     exec := exec |}.

Definition gemini_config : AIConfig :=
  {| enabled := Some true;
     settings := {[ "command" := "gemini"; "model" := "gemini-2.5-pro";
                    "prompt_flag" := "-p" ]} |}.

Definition claude_config : AIConfig :=
  {| enabled := Some true; settings := {[ "command" := "claude" ]} |}.

Definition codex_config : AIConfig :=
  {| enabled := Some false; settings := {[ "command" := "codex" ]} |}.

Definition gemini_client : BaseAIClient := mkClient GeminiClient gemini_config "gemini".
Definition claude_client : BaseAIClient := mkClient ClaudeClient claude_config "claude".
Definition codex_client : BaseAIClient := mkClient CodexClient codex_config "codex".

(** A Gemini client whose configuration lacks [prompt_flag]: building its
    command line raises [KeyError]. *)
Definition broken_client : BaseAIClient :=
  mkClient GeminiClient (mkAIConfig (Some true) {[ "command" := "gemini" ]}) "Gemini".

Definition implementation_done : AIResponse :=
  response true "def fib(n): return n if n < 2 else fib(n-1) + fib(n-2)" "gemini".

(** The batch of the specification's timeout scenario: one reviewer fails
    at once, one never answers, one succeeds after one second; the global
    timeout is five seconds. *)
Definition timeout_reviewers : list BaseAIClient :=
  [codex_client; claude_client; gemini_client].

(** A batch in which every call settles: one fails at once, one raises,
    one succeeds. *)
Definition settling_reviewers : list BaseAIClient :=
  [codex_client; broken_client; gemini_client].

Definition five_seconds : ParallelReviewer := mkParallelReviewer 5.

(** Agents whose every run exits with status 1 and touches no file. *)
Definition failing_exec (cmd : list string) (fs : FS) : Proc :=
  Exits 2000 (mkCompleted 1 "" "rate limit exceeded") 2%float fs.

(** Agents whose every run exits with status 0 and touches no file. *)
Definition passive_exec (cmd : list string) (fs : FS) : Proc :=
  Exits 2000 (mkCompleted 0 "done" "") 2%float fs.

Definition empty_world : World :=
  {| fs := ∅; console := []; improve_calls := []; improve_returns := [] |}.

Definition claude_review : AIResponse := response true "Handle n < 0." "claude".

Definition scenario_config : Config :=
  {| ai := {[ "claude" := claude_config; "gemini" := gemini_config;
              "codex" := codex_config ]};
     execution := {[ "timeout_seconds" := 300%Z ]} |}.

(** Agents that answer every request except the one to edit the file,
    which exits with status 1. *)
Definition improve_failing_exec (cmd : list string) (fs : FS) : Proc :=
  if existsb (str_in "请直接编辑文件") cmd
  then Exits 2000 (mkCompleted 1 "" "rate limit exceeded") 2%float fs
  else Exits 2000 (mkCompleted 0 "done" "") 2%float fs.

(** Agents that answer every request except the one to edit the file,
    for which the process cannot be started. *)
Definition improve_crashing_exec (cmd : list string) (fs : FS) : Proc :=
  if existsb (str_in "请直接编辑文件") cmd
  then SpawnFails 0 (OSError "[Errno 12] Cannot allocate memory")
  else Exits 2000 (mkCompleted 0 "done" "") 2%float fs.

Definition gemini_review : AIResponse := response true "Add tests." "gemini".

(** Claude's runs exit with status 1, gemini's with status 0. *)
Definition claude_failing_exec (cmd : list string) (fs : FS) : Proc :=
  match cmd with
  | "claude" :: _ => Exits 2000 (mkCompleted 1 "" "rate limit exceeded") 2%float fs
  | _ => Exits 1000 (mkCompleted 0 "LGTM" "") 1%float fs
  end.

(** Agents that answer every request and leave a mark: each run adds the
    name of its command to the file [/var/log/agents]. *)
Definition logging_exec (cmd : list string) (fs : FS) : Proc :=
  Exits 2000 (mkCompleted 0 "done" "") 2%float
    (<["/var/log/agents" :=
         default "" (fs !! "/var/log/agents") +:+ hd "" cmd +:+ ";"]> fs).


(** One run of the workflow: claude implements, claude reviews, the
    report goes to the console. *)
Definition workflow_run (exec : list string → FS → Proc) : Flow Outcome :=
  run_review_workflow (scenario_runtime exec) (λ _, "report")
    "fib" "claude" ["claude"] [] None scenario_config true empty_world.

(** A configuration in which only gemini is enabled. *)
Definition gemini_only_config : Config :=
  {| ai := {[ "claude" := mkAIConfig (Some false) {[ "command" := "claude" ]};
              "gemini" := gemini_config;
              "codex" := codex_config ]};
     execution := {[ "timeout_seconds" := 300%Z ]} |}.

(** Two files: Python source with a CR LF line end, and two bytes that
    are not UTF-8. *)
Definition crlf_files : FS :=
  {[ "a.py" := "x = 1" +:+ String carriage_return (String line_feed "y = 2");
     "b.bin" := String (Ascii.ascii_of_nat 255) (String (Ascii.ascii_of_nat 254) "") ]}.

(** Four disabled reviewers and an enabled one. *)
Definition letters_config : Config :=
  {| ai := {[ "a" := mkAIConfig (Some false) ∅; "b" := mkAIConfig (Some false) ∅;
              "c" := mkAIConfig (Some false) ∅; "d" := mkAIConfig (Some false) ∅;
              "gpt" := mkAIConfig (Some true) ∅ ]};
     execution := {[ "timeout_seconds" := 300%Z ]} |}.

(** * Properties *)

(** ** aggregate *)

Lemma aggregate_loop_app m l1 l2 :
  aggregate_loop m (l1 ++ l2) = aggregate_loop (aggregate_loop m l1) l2.
Proof.
  revert m. induction l1 as [|r l1 IH]; intros m; simpl; [done|].
  destruct (success r); apply IH.
Qed.

Lemma aggregate_loop_snoc m l r :
  aggregate_loop m (l ++ [r]) =
  if success r then <[ai_name r := output r]> (aggregate_loop m l)
  else aggregate_loop m l.
Proof. rewrite aggregate_loop_app. simpl. by destruct (success r). Qed.

Lemma last_success_snoc n o l r :
  last_success n o (l ++ [r]) ↔
  (success r = true ∧ ai_name r = n ∧ output r = o) ∨
  ((success r = true → ai_name r ≠ n) ∧ last_success n o l).
Proof.
  split.
  - intros (l1 & r0 & l2 & Heq & Hs & Hn & Ho & Hall).
    destruct l2 as [|x l2 _] using rev_ind.
    + apply app_inj_tail in Heq as [-> ->]. by left.
    + rewrite app_comm_cons, app_assoc in Heq.
      apply app_inj_tail in Heq as [-> ->].
      apply Forall_app in Hall as [Hall Hx].
      rewrite Forall_singleton in Hx.
      right. split; [done|]. by exists l1, r0, l2.
  - intros [(Hs & Hn & Ho) | (Hr & l1 & r0 & l2 & -> & Hs & Hn & Ho & Hall)].
    + exists l, r, []. by rewrite Forall_nil.
    + exists l1, r0, (l2 ++ [r]). rewrite <- app_assoc. simpl.
      repeat split; try done. apply Forall_app. by rewrite Forall_singleton.
Qed.

(** What the loop of [aggregate] leaves under a key. *)
Lemma aggregate_loop_lookup m l n o :
  aggregate_loop m l !! n = Some o ↔
  last_success n o l ∨
  (m !! n = Some o ∧ Forall (λ r, success r = true → ai_name r ≠ n) l).
Proof.
  induction l as [|r l IH] using rev_ind.
  - simpl. split.
    + intros H. right. by rewrite Forall_nil.
    + intros [(l1 & r & l2 & Heq & _) | [H _]]; [|done].
      by destruct l1.
  - rewrite aggregate_loop_snoc, last_success_snoc, Forall_app, Forall_singleton.
    destruct (success r) eqn:Hs.
    + destruct (decide (ai_name r = n)) as [Hn|Hn].
      * subst n. rewrite lookup_insert_eq. split.
        -- intros [= <-]. by left; left.
        -- intros [[(_ & _ & ->) | [Hne _]] | [_ [_ Hne]]]; [done| |]; by destruct Hne.
      * rewrite lookup_insert_ne by done. rewrite IH. split.
        -- intros [H | [H1 H2]]; [left; right | right]; split; auto; congruence.
        -- intros [[(_ & Hn' & _) | [_ H]] | [H1 [H2 _]]]; [done|by left|by right].
    + rewrite IH. split.
      * intros [H | [H1 H2]]; [left; right | right]; split; auto; congruence.
      * intros [[(? & _) | [_ H]] | [H1 [H2 _]]]; [done|by left|by right].
Qed.

Lemma aggregate_loop_size m l :
  size (aggregate_loop m l) ≤ size m + length l.
Proof.
  revert m. induction l as [|r l IH]; intros m; simpl; [lia|].
  destruct (success r).
  - etrans; [apply IH|].
    destruct (m !! ai_name r) eqn:E.
    + rewrite map_size_insert_Some by eauto. lia.
    + rewrite map_size_insert_None by done. lia.
  - etrans; [apply IH|]. lia.
Qed.

(** C5. For every input list, [aggregate] returns a summary whose
    [reviews_by_ai] holds, under each agent name, exactly the output of the
    last successful response of that name (responses with [success = false]
    are dropped, a later duplicate overwrites an earlier one), and
    [successful_reviews = |reviews_by_ai| <= total_reviews = len(reviews)]. *)
Theorem aggregate_summary (reviews : list AIResponse) :
  (∀ n o, reviews_by_ai (aggregate reviews) !! n = Some o ↔ last_success n o reviews) ∧
  successful_reviews (aggregate reviews) = size (reviews_by_ai (aggregate reviews)) ∧
  successful_reviews (aggregate reviews) ≤ total_reviews (aggregate reviews) ∧
  total_reviews (aggregate reviews) = length reviews.
Proof.
  unfold aggregate; simpl. repeat split.
  - intros H. apply aggregate_loop_lookup in H as [H | [H _]]; [done|].
    by rewrite lookup_empty in H.
  - intros H. apply aggregate_loop_lookup. by left.
  - pose proof (aggregate_loop_size ∅ reviews) as H.
    rewrite map_size_empty in H. lia.
Qed.

(** With pairwise distinct names, a key holds the output of the one
    successful response of that name. *)
Lemma last_success_NoDup n o l :
  NoDup (ai_name <$> l) →
  last_success n o l ↔ ∃ r, r ∈ l ∧ success r = true ∧ ai_name r = n ∧ output r = o.
Proof.
  intros Hnd. split.
  - intros (l1 & r & l2 & -> & Hs & Hn & Ho & _). exists r.
    split; [|done]. apply elem_of_app. right. by left.
  - intros (r & Hin & Hs & Hn & Ho).
    apply list_elem_of_split in Hin as (l1 & l2 & ->).
    exists l1, r, l2. repeat split; try done.
    rewrite fmap_app, fmap_cons in Hnd.
    apply NoDup_app in Hnd as (_ & _ & Hnd).
    apply NoDup_cons in Hnd as [Hnotin _].
    apply Forall_forall. intros r' Hr' _ Heq. apply Hnotin.
    rewrite Hn, <- Heq. by apply list_elem_of_fmap_2.
Qed.

(** C7. [aggregate] gives the same summary on every reordering of a list of
    responses with pairwise distinct agent names: the same
    [total_reviews], [successful_reviews] and [reviews_by_ai]. *)
Theorem aggregate_permutation (reviews reviews' : list AIResponse) :
  NoDup (ai_name <$> reviews) →
  reviews ≡ₚ reviews' →
  aggregate reviews = aggregate reviews'.
Proof.
  intros Hnd Hperm.
  assert (Hnd' : NoDup (ai_name <$> reviews')) by by rewrite <- Hperm.
  assert (Hmap : aggregate_loop ∅ reviews = aggregate_loop ∅ reviews').
  { apply map_eq. intros n. apply option_eq. intros o.
    rewrite !aggregate_loop_lookup, !lookup_empty.
    rewrite !last_success_NoDup by done.
    split; (intros [(r & Hin & H) | [? _]]; [|done]); left; exists r; split; try done.
    - by rewrite <- Hperm.
    - by rewrite Hperm. }
  unfold aggregate. rewrite Hmap. f_equal. by apply Permutation_length.
Qed.

(** C7 at work: three responses and a rotation of them. *)
Lemma aggregate_permutation_witness :
  NoDup (ai_name <$> security_reviews) ∧
  aggregate security_reviews =
  aggregate [ response true "Nothing to add." "codex";
              response true "Found a SECURITY hole in the login handler." "claude";
              response true "security: inputs are not validated; Performance is fine." "gemini" ].
Proof.
  assert (Hnd : NoDup (ai_name <$> security_reviews)).
  { apply (bool_decide_unpack _). vm_compute. exact I. }
  split; [exact Hnd|].
  apply (aggregate_permutation security_reviews); [exact Hnd|].
  unfold security_reviews.
  etrans; [apply Permutation_skip, Permutation_swap | apply Permutation_swap].
Defined.

(** ** find_common_themes *)

Lemma string_app_nil s : "" +:+ s = s.
Proof. reflexivity. Qed.

Lemma string_app_cons a s t : String a s +:+ t = String a (s +:+ t).
Proof. reflexivity. Qed.

(** Push [+:+] through the literal prefixes of a goal or hypothesis. *)
Ltac string_simpl := rewrite ?string_app_cons, ?string_app_nil in *.

Lemma startswith_spec needle hay :
  startswith needle hay = true ↔ ∃ post, hay = needle +:+ post.
Proof.
  revert hay. induction needle as [|a needle IH]; intros hay; simpl.
  - split; [by exists hay | done].
  - destruct hay as [|b hay].
    + split; [done | by intros [post ?]].
    + destruct (decide (a = b)) as [->|Hne].
      * rewrite IH. split; intros [post Hpost]; exists post; string_simpl; congruence.
      * split; [done | intros [post ?]; string_simpl; congruence].
Qed.

(** [str_in] is the substring test. *)
Lemma str_in_spec needle hay :
  str_in needle hay = true ↔ ∃ pre post, hay = pre +:+ needle +:+ post.
Proof.
  induction hay as [|b hay IH]; simpl.
  - rewrite orb_false_r, startswith_spec. split.
    + intros [post ->]. by exists "", post.
    + intros (pre & post & H). destruct pre; [by exists post | by string_simpl].
  - rewrite orb_true_iff, startswith_spec, IH. split.
    + intros [[post ->] | (pre & post & ->)].
      * by exists "", post.
      * by exists (String b pre), post.
    + intros (pre & post & H). destruct pre as [|c pre].
      * left. by exists post.
      * right. exists pre, post. string_simpl. congruence.
Qed.

Section ThemesProperties.
Variable lower : string → string.

Lemma count_mentions_filter keyword reviews :
  count_mentions lower keyword reviews =
  length (filter (λ r, mentions lower keyword r = true) reviews).
Proof.
  unfold count_mentions.
  assert (H : ∀ acc, fold_left
      (λ acc r, if mentions lower keyword r then acc + 1 else acc) reviews acc =
      acc + length (filter (λ r, mentions lower keyword r = true) reviews)).
  { induction reviews as [|r reviews IH]; intros acc; simpl; [lia|].
    rewrite IH, filter_cons. case_decide as Hd.
    - rewrite Hd. simpl. lia.
    - destruct (mentions lower keyword r); [done | lia]. }
  apply H.
Qed.

Lemma themes_loop_closed acc kws reviews :
  themes_loop lower acc kws reviews =
  acc ++ ((λ k, theme k (count_mentions lower k reviews)) <$>
          filter (λ k, 2 ≤ count_mentions lower k reviews) kws).
Proof.
  revert acc. induction kws as [|k kws IH]; intros acc; simpl.
  - by rewrite app_nil_r.
  - rewrite filter_cons. destruct (decide (2 ≤ count_mentions lower k reviews)).
    + rewrite IH, <- app_assoc. done.
    + apply IH.
Qed.
End ThemesProperties.

Lemma string_length_app s1 s2 :
  String.length (s1 +:+ s2) = String.length s1 + String.length s2.
Proof. induction s1; string_simpl; simpl; congruence. Qed.

Lemma string_app_inv_tail s1 s2 t : s1 +:+ t = s2 +:+ t → s1 = s2.
Proof.
  revert s2. induction s1 as [|a s1 IH]; intros [|b s2] H; string_simpl.
  - done.
  - apply (f_equal String.length) in H. simpl in H.
    rewrite string_length_app in H. lia.
  - apply (f_equal String.length) in H. simpl in H.
    rewrite string_length_app in H. lia.
  - injection H as -> H. f_equal. by apply IH.
Qed.

(** Two keywords never share a theme line, and the line shows the count. *)
Lemma theme_inj_keywords k1 k2 c1 c2 :
  k1 ∈ keywords → k2 ∈ keywords → theme k1 c1 = theme k2 c2 → k1 = k2 ∧ c1 = c2.
Proof.
  unfold keywords, theme. intros H1 H2 H.
  repeat (apply elem_of_cons in H1 as [->|H1]);
    [..| by apply elem_of_nil in H1];
    (repeat (apply elem_of_cons in H2 as [->|H2]);
      [..| by apply elem_of_nil in H2]);
    string_simpl; try discriminate H;
    (split; [done|]);
    repeat (injection H as H);
    apply string_app_inv_tail in H; by apply (inj pretty) in H.
Qed.

(** C6. [find_common_themes] is a function of its input: for each keyword
    of the fixed list, in list order, it counts the reviews whose
    lower-cased output contains the lower-cased keyword as a substring,
    and emits the line [keyword (提到 count 次)] exactly when that count is
    at least 2.  So a keyword counted twice is reported with count 2 and a
    keyword counted once is not reported. *)
Theorem find_common_themes_spec (lower : string → string) (reviews : list AIResponse) :
  let count k :=
    length (filter (λ r, str_in (lower k) (lower (output r)) = true) reviews) in
  find_common_themes lower reviews =
    ((λ k, theme k (count k)) <$> filter (λ k, 2 ≤ count k) keywords) ∧
  (∀ k c, k ∈ keywords →
     theme k c ∈ find_common_themes lower reviews ↔ c = count k ∧ 2 ≤ c) ∧
  (∀ needle hay, str_in needle hay = true ↔ ∃ pre post, hay = pre +:+ needle +:+ post) ∧
  (count "security" = 2 → count "performance" = 1 →
     "security (提到 2 次)" ∈ find_common_themes lower reviews ∧
     ∀ c, theme "performance" c ∉ find_common_themes lower reviews).
Proof.
  intros count.
  assert (Hcount : ∀ k, count_mentions lower k reviews = count k).
  { intros k. apply count_mentions_filter. }
  assert (Hclosed : find_common_themes lower reviews =
    ((λ k, theme k (count k)) <$> filter (λ k, 2 ≤ count k) keywords)).
  { unfold find_common_themes. rewrite themes_loop_closed. simpl app.
    rewrite (list_filter_iff (λ k, 2 ≤ count_mentions lower k reviews)
               (λ k, 2 ≤ count k) keywords) by (intros k; by rewrite Hcount).
    apply list_fmap_ext. intros _ k _. by rewrite Hcount. }
  assert (Hmem : ∀ k c, k ∈ keywords →
     theme k c ∈ find_common_themes lower reviews ↔ c = count k ∧ 2 ≤ c).
  { intros k c Hk. rewrite Hclosed, list_elem_of_fmap. split.
    - intros (k' & Heq & Hk'). apply list_elem_of_filter in Hk' as [Hge Hk'].
      apply theme_inj_keywords in Heq as [-> ->]; done.
    - intros [-> Hge]. exists k. split; [done|]. by apply list_elem_of_filter. }
  split; [done|]. split; [done|]. split; [apply str_in_spec|].
  intros Hsec Hperf. split.
  - change "security (提到 2 次)" with (theme "security" 2).
    apply Hmem; [|by rewrite Hsec]. unfold keywords. repeat constructor.
  - intros c Hc. apply Hmem in Hc as [-> Hc]; [lia|].
    unfold keywords. repeat constructor.
Qed.

(** The scenario of C6 evaluated: two reviews mention security, one
    mentions performance. *)
Example find_common_themes_security :
  find_common_themes ascii_lower security_reviews = ["security (提到 2 次)"].
Proof. vm_compute. reflexivity. Qed.

(** ** review_code *)

Lemma gather_settled (deadline : Z) (tasks : list (Awaited AIResponse)) :
  (0 ≤ deadline)%Z →
  Forall (settled_by deadline) tasks →
  ∃ t, gather tasks = Some (t, omap task_result tasks) ∧ (t ≤ deadline)%Z.
Proof.
  intros Hd. induction 1 as [|task tasks Htask _ (t & Hg & Ht)]; simpl.
  - by exists 0%Z.
  - rewrite Hg. destruct task as [t0 a ?|t0 e ?|]; simpl in *; [| |done];
      exists (Z.max t0 t); split; try done; lia.
Qed.

Lemma gather_bounds (tasks : list (Awaited AIResponse)) t rs :
  gather tasks = Some (t, rs) → Forall (settled_by t) tasks.
Proof.
  revert t rs. induction tasks as [|task tasks IH]; intros t rs H; simpl in H.
  - constructor.
  - destruct task as [t0 a ?|t0 e ?|]; [| |done];
      (destruct (gather tasks) as [[t' rs']|] eqn:E; [|done]);
      injection H as <- <-; (constructor; [simpl; lia|]);
      (eapply Forall_impl; [by eapply IH|]);
      intros [| |]; simpl; lia.
Qed.

Lemma wait_for_settled (timeout : Z) (tasks : list (Awaited AIResponse)) :
  Forall (settles_within timeout) tasks →
  wait_for tasks timeout = Some (omap task_result tasks).
Proof.
  intros Hall. unfold wait_for. destruct tasks as [|task tasks].
  - destruct (decide (timeout ≤ 0)%Z); [done|]. simpl.
    by rewrite decide_True by lia.
  - assert (0 < timeout)%Z as Hpos.
    { apply Forall_cons in Hall as [[? _] _]. done. }
    rewrite decide_False by lia.
    destruct (gather_settled (1000 * timeout) (task :: tasks)) as (t & -> & Ht);
      [lia| |].
    + eapply Forall_impl; [done|]. by intros ? [_ ?].
    + by rewrite decide_True.
Qed.

Lemma wait_for_timed_out (timeout : Z) (tasks : list (Awaited AIResponse)) task :
  task ∈ tasks → ¬ settles_within timeout task →
  wait_for tasks timeout = None.
Proof.
  intros Hin Hlate. unfold wait_for. destruct (decide (timeout ≤ 0)%Z) as [|Hpos].
  - destruct tasks; [by apply elem_of_nil in Hin | done].
  - destruct (gather tasks) as [[t rs]|] eqn:E; [|done].
    destruct (decide (t ≤ 1000 * timeout)%Z) as [Ht|]; [|done].
    destruct Hlate. split; [lia|].
    apply gather_bounds in E. rewrite Forall_forall in E.
    specialize (E _ Hin). destruct task; simpl in *; lia.
Qed.

Lemma collect_successful_fst acc printed reviews :
  (collect_successful acc printed reviews).1 =
  acc ++ omap (λ r, match r with
                    | Ok a => if success a then Some a else None
                    | Raise _ => None
                    end) reviews.
Proof.
  revert acc printed. induction reviews as [|[a|e] reviews IH]; intros acc printed; simpl.
  - by rewrite app_nil_r.
  - destruct (success a); rewrite IH; [by rewrite <- app_assoc | done].
  - by rewrite IH.
Qed.

Lemma omap_task_result_successful (tasks : list (Awaited AIResponse)) :
  omap (λ r, match r with
             | Ok a => if success a then Some a else None
             | Raise _ => None
             end) (omap task_result tasks) =
  omap successful_response tasks.
Proof.
  induction tasks as [|[t a ?|t e ?|] tasks IH]; simpl; try done.
  destruct (success a); simpl; [f_equal|]; exact IH.
Qed.

Lemma omap_fmap_list {A B C} (g : A → B) (f : B → option C) (l : list A) :
  omap f (g <$> l) = omap (λ x, f (g x)) l.
Proof.
  induction l as [|x l IH]; simpl; [done|].
  destruct (f (g x)); simpl; [f_equal|]; exact IH.
Qed.

Lemma length_omap_le {A B} (f : A → option B) (l : list A) :
  length (omap f l) ≤ length l.
Proof.
  unfold omap. induction l as [|x l IH]; simpl; [done|].
  destruct (f x); simpl; lia.
Qed.

Lemma successful_response_success task a :
  successful_response task = Some a → success a = true.
Proof.
  destruct task as [t a' ?| |]; simpl; try done.
  destruct (success a') eqn:E; [|done]. by intros [= <-].
Qed.

Section ReviewerProperties.
Variable rt : Runtime.

(** C1. If some reviewer's call has not settled when the global timeout
    elapses, [review_code] returns the empty list (and prints the timeout
    message), whatever the other reviewers returned before the deadline. *)
Theorem review_code_timeout (self : ParallelReviewer) (implementation : AIResponse)
    (reviewers : list BaseAIClient) (original_prompt context : string) (fs : FS)
    (reviewer : BaseAIClient) :
  reviewer ∈ reviewers →
  ¬ settles_within (timeout_seconds self)
      (review rt reviewer (output implementation) original_prompt context fs) →
  review_code rt self implementation reviewers original_prompt context fs =
    ([], [ReviewTimedOut (timeout_seconds self)]).
Proof.
  intros Hin Hlate. unfold review_code.
  erewrite wait_for_timed_out; [done| |exact Hlate].
  unfold review_tasks. apply list_elem_of_fmap. by exists reviewer.
Qed.

(** C2. When every reviewer's call settles within the timeout,
    [review_code] returns exactly the responses with [success = true], in
    reviewer order: a call that raised or answered [success = false]
    contributes nothing and changes nothing for the others.  So the result
    is no longer than the reviewer list and holds successes only. *)
Theorem review_code_successes (self : ParallelReviewer) (implementation : AIResponse)
    (reviewers : list BaseAIClient) (original_prompt context : string) (fs : FS) :
  (∀ reviewer, reviewer ∈ reviewers →
     settles_within (timeout_seconds self)
       (review rt reviewer (output implementation) original_prompt context fs)) →
  let result :=
    (review_code rt self implementation reviewers original_prompt context fs).1 in
  result = omap (λ reviewer, successful_response
                   (review rt reviewer (output implementation) original_prompt context fs))
                reviewers ∧
  length result ≤ length reviewers ∧
  Forall (λ r, success r = true) result.
Proof.
  intros Hall result.
  assert (Hres : result = omap (λ reviewer, successful_response
                   (review rt reviewer (output implementation) original_prompt context fs))
                reviewers).
  { unfold result, review_code. rewrite wait_for_settled.
    - rewrite collect_successful_fst, omap_task_result_successful. simpl.
      unfold review_tasks. apply omap_fmap_list.
    - unfold review_tasks. apply Forall_fmap, Forall_forall. intros r Hr.
      by apply Hall. }
  split; [done|]. rewrite Hres. split.
  - apply length_omap_le.
  - apply Forall_forall. intros r Hr.
    apply list_elem_of_omap in Hr as (reviewer & _ & Hr).
    by eapply successful_response_success.
Qed.
End ReviewerProperties.

(** C1 on the scenario of the specification: the call of [claude] never
    settles, so the review of [gemini], done after one second, is lost. *)
Lemma review_code_timeout_witness :
  claude_client ∈ timeout_reviewers ∧
  settles_within 5 (review (scenario_runtime slow_claude_exec) gemini_client
                      (output implementation_done) "fib" "" ∅) ∧
  ¬ settles_within 5 (review (scenario_runtime slow_claude_exec) claude_client
                        (output implementation_done) "fib" "" ∅) ∧
  review_code (scenario_runtime slow_claude_exec) five_seconds implementation_done
    timeout_reviewers "fib" "" ∅ = ([], [ReviewTimedOut 5]).
Proof.
  assert (Hin : claude_client ∈ timeout_reviewers).
  { unfold timeout_reviewers. repeat constructor. }
  assert (Hlate : ¬ settles_within 5
            (review (scenario_runtime slow_claude_exec) claude_client
               (output implementation_done) "fib" "" ∅)).
  { intros [_ H]. vm_compute in H. exact H. }
  split; [exact Hin|]. split; [by vm_compute|]. split; [exact Hlate|].
  exact (review_code_timeout (scenario_runtime slow_claude_exec) five_seconds
           implementation_done timeout_reviewers "fib" "" ∅ claude_client Hin Hlate).
Defined.

(** C2 on a batch where one call fails, one raises and one succeeds. *)
Lemma review_code_successes_witness :
  (∀ reviewer, reviewer ∈ settling_reviewers →
     settles_within (timeout_seconds five_seconds)
       (review (scenario_runtime slow_claude_exec) reviewer
          (output implementation_done) "fib" "" ∅)) ∧
  (review_code (scenario_runtime slow_claude_exec) five_seconds implementation_done
     settling_reviewers "fib" "" ∅).1 =
  omap (λ reviewer, successful_response
          (review (scenario_runtime slow_claude_exec) reviewer
             (output implementation_done) "fib" "" ∅)) settling_reviewers.
Proof.
  assert (Hall : ∀ reviewer, reviewer ∈ settling_reviewers →
     settles_within (timeout_seconds five_seconds)
       (review (scenario_runtime slow_claude_exec) reviewer
          (output implementation_done) "fib" "" ∅)).
  { intros reviewer Hin. unfold settling_reviewers in Hin.
    repeat (apply elem_of_cons in Hin as [->|Hin]); [by vm_compute..|].
    by apply elem_of_nil in Hin. }
  split; [exact Hall|].
  exact (proj1 (review_code_successes (scenario_runtime slow_claude_exec) five_seconds
                  implementation_done settling_reviewers "fib" "" ∅ Hall)).
Defined.

(** The two batches evaluated. *)
Example review_code_settling_batch :
  review_code (scenario_runtime slow_claude_exec) five_seconds implementation_done
    settling_reviewers "fib" "" ∅ =
  ([response_of (mkCompleted 0 "LGTM" "") 1%float "gemini-2.5-pro" "gemini"],
   [ReviewFailed "codex" (Some "Codex is currently disabled (API key issue)");
    ReviewRaised (KeyError "model")]).
Proof. vm_compute. reflexivity. Qed.

(** ** The improvement loop *)

Section WorkflowProperties.
Variable rt : Runtime.

Lemma improve_file_has_improve_file (reviewer : BaseAIClient) :
  is_Some (improve_file rt reviewer) ↔ has_improve_file reviewer = true.
Proof.
  unfold improve_file, has_improve_file.
  destruct (cls reviewer); split; intros H; try done; by eexists.
Qed.

Lemma run_and_wrap_ai_name cmd model name fs t improved fs' :
  run_and_wrap rt cmd model name fs = Returns t improved fs' →
  ai_name improved = name.
Proof.
  unfold run_and_wrap. destruct cmd as [cmd|e]; [|done].
  destruct (exec rt cmd fs); [|done..]. by intros [= _ <- _].
Qed.

(** A response of [improve_file] carries the name of the client. *)
Lemma improve_file_ai_name reviewer call file_path review_output prompt fs t improved fs' :
  improve_file rt reviewer = Some call →
  call file_path review_output prompt fs = Returns t improved fs' →
  ai_name improved = name reviewer.
Proof.
  unfold improve_file. destruct (cls reviewer); intros [= <-] H;
    by eapply run_and_wrap_ai_name.
Qed.

Lemma find_by_name reviewers (review : AIResponse) reviewer :
  List.find (λ r, bool_decide (name r = ai_name review)) reviewers = Some reviewer →
  name reviewer = ai_name review.
Proof.
  intros H. apply find_some in H as [_ H]. by apply bool_decide_eq_true in H.
Qed.

Lemma capable_improver reviewers (review : AIResponse) :
  capable reviewers review = true ↔ is_Some (improver rt reviewers review).
Proof.
  unfold capable, improver. destruct (List.find _ reviewers) as [reviewer|]; simpl.
  - symmetry. apply improve_file_has_improve_file.
  - split; [done | by intros [? ?]].
Qed.

(** A response of the call made for a review carries the review's name. *)
Lemma improver_ai_name reviewers (review : AIResponse) call file_path review_output
    prompt fs t improved fs' :
  improver rt reviewers review = Some call →
  call file_path review_output prompt fs = Returns t improved fs' →
  ai_name improved = ai_name review.
Proof.
  unfold improver. destruct (List.find _ reviewers) as [reviewer|] eqn:Hfind; [|done].
  simpl. intros Hcall Hret. rewrite <- (find_by_name _ _ _ Hfind).
  by eapply improve_file_ai_name.
Qed.

(** One turn of the loop. *)
Lemma improve_loop_cons reviewers code_file prompt review rest logs w :
  improve_loop rt reviewers code_file prompt (review :: rest) logs w =
  match improver rt reviewers review with
  | None => improve_loop rt reviewers code_file prompt rest logs w
  | Some call =>
      match call code_file (output review) prompt (fs w) with
      | Returns _ improved fs' =>
          improve_loop rt reviewers code_file prompt rest
            (if success improved then <[ai_name improved := output improved]> logs
             else logs)
            (print (if success improved then MsgImproved (ai_name review) improved
                    else MsgImproveFailed (ai_name review) (errors improved))
               (log_improve_return improved
                  (set_fs fs'
                     (log_improve_call (ai_name review) code_file
                        (print (MsgImproving (ai_name review)) w)))))
      | Raises _ e fs' =>
          Propagates e
            (set_fs fs'
               (log_improve_call (ai_name review) code_file
                  (print (MsgImproving (ai_name review)) w)))
      | Never => Diverges
      end
  end.
Proof.
  simpl. unfold improver.
  destruct (List.find _ reviewers) as [reviewer|] eqn:Hfind; simpl; [|done].
  destruct (improve_file rt reviewer) as [call|] eqn:Hcall; [|done].
  rewrite (find_by_name _ _ _ Hfind).
  destruct (call _ _ _ _) as [t improved fs'| |] eqn:Hret; [|done..].
  rewrite (improve_file_ai_name _ _ _ _ _ _ _ _ _ Hcall Hret), (find_by_name _ _ _ Hfind).
  by destruct (success improved).
Qed.


(** The loop, outcome by outcome.  It invokes [improve_file] for the
    reviews of capable agents and for no other, in order, each call on
    the file system the call before it left.  When all these calls
    return it ends normally: the dictionary is the aggregate of their
    responses and the console holds two messages for each.  The first
    call that raises ends it with that exception, and the first that
    never returns blocks it: the reviews after that one are not
    processed. *)
Lemma improve_loop_trace reviewers code_file prompt review_results logs w :
  match improve_loop rt reviewers code_file prompt review_results logs w with
  | Normal logs' w' =>
      ∃ done,
        improved_in_turn rt reviewers code_file prompt
          (filter (λ review, capable reviewers review = true) review_results)
          (fs w) done (fs w') ∧
        logs' = aggregate_loop logs done.*2 ∧
        console w' = console w ++ (done ≫= improve_messages) ∧
        improve_calls w' =
          improve_calls w ++
          ((λ review, (ai_name review, code_file)) <$>
             filter (λ review, capable reviewers review = true) review_results) ∧
        improve_returns w' = improve_returns w ++ done.*2
  | Propagates e w' =>
      ∃ before review after call t done fs1,
        filter (λ review, capable reviewers review = true) review_results =
          before ++ review :: after ∧
        improved_in_turn rt reviewers code_file prompt before (fs w) done fs1 ∧
        improver rt reviewers review = Some call ∧
        call code_file (output review) prompt fs1 = Raises t e (fs w') ∧
        console w' =
          console w ++ (done ≫= improve_messages) ++
          [MsgImproving (ai_name review)] ∧
        improve_calls w' =
          improve_calls w ++
          ((λ review, (ai_name review, code_file)) <$> (before ++ [review]))
  | Diverges =>
      ∃ before review after call done fs1,
        filter (λ review, capable reviewers review = true) review_results =
          before ++ review :: after ∧
        improved_in_turn rt reviewers code_file prompt before (fs w) done fs1 ∧
        improver rt reviewers review = Some call ∧
        call code_file (output review) prompt fs1 = Never
  end.
Proof.
  revert logs w. induction review_results as [|review rest IH]; intros logs w.
  { simpl. exists []. rewrite filter_nil. simpl. rewrite !app_nil_r.
    split; [constructor | done]. }
  rewrite improve_loop_cons.
  destruct (improver rt reviewers review) as [call|] eqn:Himp.
  2:{ rewrite filter_cons_False; [apply IH|].
      rewrite capable_improver, Himp. by intros [? ?]. }
  rewrite filter_cons_True by (rewrite capable_improver, Himp; by eexists).
  destruct (call code_file (output review) prompt (fs w)) as [t improved fs'| |] eqn:Hret.
  - match goal with
    | |- context [improve_loop rt reviewers code_file prompt rest ?logs1 ?w1] =>
        specialize (IH logs1 w1);
        destruct (improve_loop rt reviewers code_file prompt rest logs1 w1)
          as [logs' w'|e w'|]
    end; simpl in IH.
    + destruct IH as (done & Hturn & -> & Hcon & Hcalls & Hrets).
      exists ((review, improved) :: done).
      split; [by econstructor|]. split; [simpl; by destruct (success improved)|].
      rewrite Hcon, Hcalls, Hrets, <- !app_assoc. done.
    + destruct IH as (before & review' & after & call' & t' & done & fs1 & -> & Hturn &
                      Himp' & Hraise & Hcon & Hcalls).
      exists (review :: before), review', after, call', t', ((review, improved) :: done), fs1.
      split; [done|]. split; [by econstructor|]. split; [done|]. split; [done|].
      rewrite Hcon, Hcalls, <- !app_assoc. done.
    + destruct IH as (before & review' & after & call' & done & fs1 & -> & Hturn &
                      Himp' & Hnever).
      exists (review :: before), review', after, call', ((review, improved) :: done), fs1.
      split; [done|]. split; [by econstructor|]. done.
  - exists [], review, (filter (λ review, capable reviewers review = true) rest),
      call, t, [], (fs w).
    split; [done|]. split; [constructor|]. done.
  - exists [], review, (filter (λ review, capable reviewers review = true) rest),
      call, [], (fs w).
    split; [done|]. split; [constructor|]. done.
Qed.

(** The loop runs to its end whenever every [improve_file] call returns. *)
Lemma improve_loop_returns reviewers code_file prompt review_results logs w :
  (∀ reviewer call review_output fs,
     reviewer ∈ reviewers → improve_file rt reviewer = Some call →
     ∃ t improved fs', call code_file review_output prompt fs = Returns t improved fs') →
  ∃ logs' w',
    improve_loop rt reviewers code_file prompt review_results logs w = Normal logs' w'.
Proof.
  intros Hret. revert logs w.
  induction review_results as [|review rest IH]; intros logs w; simpl; [by eexists _, _|].
  destruct (List.find _ reviewers) as [reviewer|] eqn:Hfind; [|apply IH].
  destruct (improve_file rt reviewer) as [call|] eqn:Hcall; [|apply IH].
  apply find_some in Hfind as [Hin _]. apply list_elem_of_In in Hin.
  edestruct (Hret reviewer call) as (t & improved & fs' & ->); [done..|].
  destruct (success improved); apply IH.
Qed.


Lemma improved_in_turn_names reviewers code_file prompt reviews fs done fs' :
  improved_in_turn rt reviewers code_file prompt reviews fs done fs' →
  Forall (λ step, ai_name step.2 = ai_name step.1) done.
Proof.
  induction 1 as [|review reviews call t improved fs0 fs1 done fs2 Himp Hret _ IH];
    constructor; [|done].
  simpl. by eapply improver_ai_name.
Qed.

(** C3, as the code has it.  When the loop runs to its end, the
    improvement log holds, under each agent name, the output of the last
    response to an [improve_file] call of that agent that has
    [success = true]: a response with [success = false] records nothing,
    so a name whose calls all failed has no entry.  Each such response is
    instead printed on the console as a failure, with the agent's name
    and its [errors]; the console gets, for every call in turn, the
    announcement of the call and then the line of its success or of its
    failure. *)
Theorem improvement_log_successes (reviewers : list BaseAIClient)
    (code_file prompt : string) (review_results : list AIResponse)
    (w : World) (improvement_logs : gmap string string) (w' : World) :
  improve_loop rt reviewers code_file prompt review_results ∅ w =
    Normal improvement_logs w' →
  ∃ done,
    improved_in_turn rt reviewers code_file prompt
      (filter (λ review, capable reviewers review = true) review_results)
      (fs w) done (fs w') ∧
    (∀ n o, improvement_logs !! n = Some o ↔ last_success n o done.*2) ∧
    (∀ n, (∀ improved, improved ∈ done.*2 → ai_name improved = n →
             success improved = false) →
          improvement_logs !! n = None) ∧
    console w' = console w ++ (done ≫= improve_messages) ∧
    (∀ improved, improved ∈ done.*2 → success improved = false →
       MsgImproveFailed (ai_name improved) (errors improved) ∈ console w').
Proof.
  intros H.
  pose proof (improve_loop_trace reviewers code_file prompt review_results ∅ w) as Htrace.
  rewrite H in Htrace. destruct Htrace as (done & Hturn & -> & Hcon & _).
  assert (Hlog : ∀ n o, aggregate_loop ∅ done.*2 !! n = Some o ↔ last_success n o done.*2).
  { intros n o. rewrite aggregate_loop_lookup, lookup_empty. split.
    - by intros [? | [? _]].
    - by left. }
  exists done. split; [exact Hturn|]. split; [exact Hlog|]. split; [|split; [exact Hcon|]].
  - intros n Hn. destruct (aggregate_loop ∅ done.*2 !! n) as [o|] eqn:Ho; [|done].
    apply Hlog in Ho as (l1 & r & l2 & Heq & Hs & Hname & _).
    rewrite (Hn r) in Hs; [done| |done].
    rewrite Heq. apply elem_of_app. right. left.
  - intros improved Hin Hs. rewrite Hcon. apply elem_of_app. right.
    apply list_elem_of_fmap in Hin as ([review improved'] & -> & Hin). simpl in *.
    apply list_elem_of_bind. exists (review, improved'). split; [|done].
    unfold improve_messages. simpl. rewrite Hs.
    pose proof (improved_in_turn_names _ _ _ _ _ _ _ Hturn) as Hnames.
    rewrite Forall_forall in Hnames. specialize (Hnames _ Hin). simpl in Hnames.
    rewrite Hnames. right. left.
Qed.

End WorkflowProperties.

(** The claim C3 as stated fails: a call of [improve_file] that answers
    [success = false] leaves no entry in the improvement log. *)
Lemma improvement_log_counterexample :
  ∃ improvement_logs w' improved,
    improve_loop (scenario_runtime failing_exec) [claude_client] "/tmp/code.py" "fib"
      [claude_review] ∅ empty_world = Normal improvement_logs w' ∧
    improve_calls w' = [("claude", "/tmp/code.py")] ∧
    improve_returns w' = [improved] ∧
    success improved = false ∧
    improvement_logs !! ai_name improved = None.
Proof.
  eexists _, _, _. split; [vm_compute; reflexivity|].
  repeat split; vm_compute; reflexivity.
Qed.

(** C3 at work: claude's call answers failure, gemini's succeeds; only
    gemini is recorded, and the failure is on the console. *)
Lemma improvement_log_successes_witness :
  ∃ improvement_logs w',
    improve_loop (scenario_runtime claude_failing_exec) [claude_client; gemini_client]
      "/tmp/code.py" "fib" [claude_review; gemini_review] ∅ empty_world =
      Normal improvement_logs w' ∧
    improvement_logs = {[ "gemini" := "LGTM" ]} ∧
    MsgImproveFailed "claude" (Some "rate limit exceeded") ∈ console w' ∧
    ∃ done,
      improved_in_turn (scenario_runtime claude_failing_exec)
        [claude_client; gemini_client] "/tmp/code.py" "fib"
        (filter (λ review, capable [claude_client; gemini_client] review = true)
           [claude_review; gemini_review])
        (fs empty_world) done (fs w') ∧
      (∀ n o, improvement_logs !! n = Some o ↔ last_success n o done.*2) ∧
      (∀ n, (∀ improved, improved ∈ done.*2 → ai_name improved = n →
               success improved = false) →
            improvement_logs !! n = None) ∧
      console w' = console empty_world ++ (done ≫= improve_messages) ∧
      (∀ improved, improved ∈ done.*2 → success improved = false →
         MsgImproveFailed (ai_name improved) (errors improved) ∈ console w').
Proof.
  eexists _, _.
  assert (Hrun : ∀ x y : Flow (gmap string string), x = y → y = x) by done.
  split; [apply Hrun; vm_compute; reflexivity|].
  split; [vm_compute; reflexivity|].
  split; [vm_compute; right; left|].
  apply (improvement_log_successes (scenario_runtime claude_failing_exec)
           [claude_client; gemini_client] "/tmp/code.py" "fib"
           [claude_review; gemini_review] empty_world).
  vm_compute. reflexivity.
Defined.



(** ** The code file of the improvement phase *)

(** C8, evaluated on three runs: one where every call succeeds, one
    where the improvement call answers failure, one where it raises and
    ends the workflow.  In each the code file announced on the console
    still exists when the run is over ([run_review_workflow] never
    unlinks it), while the task file of [ClaudeClient.implement], removed
    in its [finally] clause, is gone. *)
Theorem code_file_left_behind :
  (∀ exec, exec ∈ [passive_exec; improve_failing_exec; improve_crashing_exec] →
     (saved_to ∘ console <$> flow_world (workflow_run exec)) = Some ["/tmp/tmp0.py"] ∧
     (fs <$> flow_world (workflow_run exec)) = Some {[ "/tmp/tmp0.py" := "done" ]}) ∧
  (∃ report logs w, workflow_run passive_exec = Normal (Finished report logs) w) ∧
  (∃ report w, workflow_run improve_failing_exec = Normal (Finished report ∅) w) ∧
  (∃ e w, workflow_run improve_crashing_exec = Propagates e w).
Proof.
  split.
  - intros exec Hin. repeat (apply elem_of_cons in Hin as [->|Hin]);
      [split; vm_compute; reflexivity..|].
    by apply elem_of_nil in Hin.
  - split; [|split].
    + eexists _, _, _. vm_compute. reflexivity.
    + eexists _, _. vm_compute. reflexivity.
    + eexists _, _. vm_compute. reflexivity.
Qed.

(** ** Singleton *)

Lemma Singleton_again self obj_value v st :
  Singleton._instance st = Some self →
  Singleton.heap st !! self = Some (Singleton.mkObject obj_value (Some true)) →
  Singleton.Singleton v st = (self, st).
Proof.
  intros Hinst Hobj. unfold Singleton.Singleton, Singleton.__new__, Singleton.__init__.
  rewrite Hinst, Hobj. done.
Qed.

Lemma Singleton_calls_cons v vs st :
  Singleton.calls (v :: vs) st =
  let '(self, st) := Singleton.Singleton v st in
  let '(selves, st) := Singleton.calls vs st in
  (self :: selves, st).
Proof. reflexivity. Qed.

(** C10. The first call [Singleton(v1)] creates the instance and sets its
    [value] to [v1]; every later call, whatever its argument, returns that
    same object and leaves the state as it is, so [value] stays [v1]. *)
Theorem Singleton_first_value (v1 : Singleton.PyVal) (vs : list Singleton.PyVal) :
  ∃ self st,
    Singleton.Singleton v1 Singleton.initial = (self, st) ∧
    Singleton._instance st = Some self ∧
    Singleton.heap st !! self = Some (Singleton.mkObject (Some v1) (Some true)) ∧
    Singleton.calls vs st = (replicate (length vs) self, st) ∧
    Singleton.calls (v1 :: vs) Singleton.initial = (replicate (S (length vs)) self, st).
Proof.
  set (self := fresh (dom (Singleton.heap Singleton.initial))).
  set (st := {| Singleton._instance := Some self;
                Singleton.heap := <[self := Singleton.mkObject (Some v1) (Some true)]>
                                    (<[self := Singleton.mkObject None None]> ∅) |}).
  assert (Hfirst : Singleton.Singleton v1 Singleton.initial = (self, st)).
  { unfold Singleton.Singleton, Singleton.__new__, Singleton.__init__. simpl.
    fold self. by rewrite lookup_insert_eq. }
  assert (Hobj : Singleton.heap st !! self =
                 Some (Singleton.mkObject (Some v1) (Some true))).
  { simpl. by rewrite lookup_insert_eq. }
  assert (Hlater : Singleton.calls vs st = (replicate (length vs) self, st)).
  { induction vs as [|v vs IH]; [done|].
    rewrite Singleton_calls_cons, (Singleton_again self (Some v1)) by done.
    by rewrite IH. }
  exists self, st. repeat split; try done.
  by rewrite Singleton_calls_cons, Hfirst, Hlater.
Qed.

(** ** The reviewer filter of main *)



(** Removing the first [x] while the iterator stands on an [x] at index
    [i]: an element seen before [i], or the one right after [i], is found
    before the iterator's next index [S i]. *)
Lemma remove_keeps (l1 l2 : list string) (x d : string) (i j : nat) :
  length l1 ≤ i →
  (l1 ++ x :: l2) !! i = Some x →
  (l1 ++ x :: l2) !! j = Some d →
  j < i ∨ j = S i →
  ∃ j', j' < S i ∧ (l1 ++ l2) !! j' = Some d.
Proof.
  intros Hk Hi Hj Hji.
  destruct (decide (j < length l1)) as [Hlt|Hge].
  { exists j. split; [lia|]. rewrite lookup_app_l in Hj by done.
    by rewrite lookup_app_l. }
  destruct (decide (j = length l1)) as [->|Hne].
  - rewrite list_lookup_middle in Hj by done. injection Hj as <-.
    exists (i - 1). split; [lia|].
    rewrite lookup_app_r in Hi by lia. rewrite lookup_app_r by lia.
    replace (i - length l1) with (S (i - 1 - length l1)) in Hi by lia. done.
  - exists (j - 1). split; [lia|].
    rewrite lookup_app_r in Hj by lia. rewrite lookup_app_r by lia.
    replace (j - length l1) with (S (j - 1 - length l1)) in Hj by lia. done.
Qed.

Lemma list_remove_length (x : string) (l l' : list string) :
  list_remove x l = Ok l' → length l = S (length l').
Proof.
  revert l'. induction l as [|y l IH]; intros l' H; simpl in H; [done|].
  destruct (decide (x = y)); [by injection H as <-|].
  destruct (list_remove x l) as [l''|]; [|done]. injection H as <-.
  simpl. by rewrite (IH l'').
Qed.

(** The loop of [main] always ends: it takes at most one step per element. *)
Lemma skip_disabled_loop_total (cfg : Config) (fuel i : nat) (l warned : list string) :
  length l - i < fuel → is_Some (skip_disabled_loop fuel cfg i l warned).
Proof.
  revert i l warned. induction fuel as [|fuel IH]; intros i l warned Hfuel; [lia|].
  simpl. destruct (l !! i) as [x|] eqn:Hi; [|done].
  apply lookup_lt_Some in Hi.
  destruct (ai cfg !! x) as [entry|]; [|done].
  destruct (enabled entry) as [[|]|]; [apply IH; lia| |done].
  destruct (list_remove x l) as [l'|] eqn:Hrm; [|done].
  apply list_remove_length in Hrm. apply IH. lia.
Qed.

Lemma skip_disabled_total (cfg : Config) (reviewer_list : list string) :
  is_Some (skip_disabled cfg reviewer_list).
Proof. apply skip_disabled_loop_total. lia. Qed.

(** [list.remove] while the iterator stands on an [x] behind [front]:
    one [x] goes, from [front] if it holds one, and what follows the
    iterator moves up by one place. *)
Lemma list_remove_middle (x : string) (front back : list string) :
  ∃ front', list_remove x (front ++ x :: back) = Ok (front' ++ back) ∧
            length front' = length front ∧ front' ≡ₚ front ∧
            (x ∉ front → front' = front).
Proof.
  induction front as [|y front (front' & Hrm & Hlen & Hperm & Hsame)]; simpl.
  - exists []. by rewrite decide_True.
  - destruct (decide (x = y)) as [<-|Hne].
    + exists (front ++ [x]). rewrite <- app_assoc. simpl.
      split; [done|]. split; [rewrite length_app; simpl; lia|].
      split; [by rewrite Permutation_app_comm|].
      intros Hnotin. by apply not_elem_of_cons in Hnotin as [? _].
    + exists (y :: front'). rewrite Hrm. simpl.
      split; [done|]. split; [by rewrite Hlen|]. split; [by rewrite Hperm|].
      intros Hnotin. apply not_elem_of_cons in Hnotin as [_ Hnotin].
      by rewrite Hsame.
Qed.

Lemma skip_disabled_loop_S (fuel : nat) (cfg : Config) (i : nat) (l warned : list string) :
  skip_disabled_loop (S fuel) cfg i l warned =
  match l !! i with
  | None => Some (Ok (l, warned))
  | Some reviewer =>
      match ai cfg !! reviewer with
      | None => Some (Raise (KeyError reviewer))
      | Some entry =>
          match enabled entry with
          | None => Some (Raise (KeyError "enabled"))
          | Some true => skip_disabled_loop fuel cfg (S i) l warned
          | Some false =>
              match list_remove reviewer l with
              | Raise e => Some (Raise e)
              | Ok l' => skip_disabled_loop fuel cfg (S i) l' (warned ++ [reviewer])
              end
          end
      end
  end.
Proof. reflexivity. Qed.

Lemma enabled_in_Some (cfg : Config) (x : string) (b : bool) :
  enabled_in cfg x = Some b ↔ ∃ entry, ai cfg !! x = Some entry ∧ enabled entry = Some b.
Proof.
  unfold enabled_in. destruct (ai cfg !! x) as [entry|]; simpl.
  - split; [by exists entry | by intros (? & [= <-] & ?)].
  - split; [done | by intros (? & ? & _)].
Qed.

Lemma stepping_filter_enabled (cfg : Config) (x : string) (rest : list string) :
  enabled_in cfg x = Some true →
  stepping_filter cfg false (x :: rest) = x :: stepping_filter cfg false rest.
Proof. intros Hx. simpl. unfold disabled. by rewrite Hx. Qed.

Lemma stepping_filter_disabled (cfg : Config) (x : string) (rest : list string) :
  enabled_in cfg x = Some false →
  stepping_filter cfg false (x :: rest) = stepping_filter cfg true rest.
Proof. intros Hx. simpl. unfold disabled. by rewrite Hx. Qed.

(** The loop against its reading from the left.  The iterator stands
    behind [front]; [back] is still to be read. *)
Lemma skip_disabled_loop_stepping (cfg : Config) (fuel : nat) :
  ∀ front back warned,
    length back < fuel →
    Forall (λ x, is_Some (enabled_in cfg x)) back →
    ∃ kept warned',
      skip_disabled_loop fuel cfg (length front) (front ++ back) warned =
        Some (Ok (kept, warned')) ∧
      kept ≡ₚ front ++ stepping_filter cfg false back ∧
      (NoDup (front ++ back) → kept = front ++ stepping_filter cfg false back).
Proof.
  induction fuel as [|fuel IH]; intros front back warned Hfuel Hall; [lia|].
  rewrite skip_disabled_loop_S.
  destruct back as [|x back].
  { rewrite app_nil_r, lookup_ge_None_2 by lia. exists front, warned.
    simpl. by rewrite app_nil_r. }
  rewrite list_lookup_middle by done.
  apply Forall_cons in Hall as [[b Hx] Hall].
  pose proof Hx as Hx'. apply enabled_in_Some in Hx' as (entry & -> & ->).
  simpl in Hfuel. destruct b.
  - destruct (IH (front ++ [x]) back warned) as (kept & warned' & Hloop & Hperm & Heq);
      [lia | done |].
    rewrite length_app, Nat.add_1_r, <- app_assoc in Hloop. simpl in Hloop.
    exists kept, warned'. rewrite stepping_filter_enabled by done.
    rewrite <- app_assoc in Hperm. simpl in Hperm.
    split; [done|]. split; [done|]. intros Hnd.
    rewrite Heq by (by rewrite <- app_assoc). by rewrite <- app_assoc.
  - destruct (list_remove_middle x front back) as (front' & -> & Hlen & Hfront & Hsame).
    rewrite stepping_filter_disabled by done.
    destruct back as [|y back].
    + destruct fuel as [|fuel]; [lia|].
      rewrite skip_disabled_loop_S, app_nil_r, lookup_ge_None_2 by lia.
      exists front', (warned ++ [x]). simpl. rewrite app_nil_r.
      split; [done|]. split; [done|].
      intros Hnd. apply Hsame. apply NoDup_app in Hnd as (_ & Hnd & _).
      intros Hin. apply (Hnd x Hin). left.
    + apply Forall_cons in Hall as [_ Hall]. simpl in Hfuel.
      destruct (IH (front' ++ [y]) back (warned ++ [x]))
        as (kept & warned' & Hloop & Hperm & Heq); [lia | done |].
      rewrite length_app, Nat.add_1_r, <- app_assoc, Hlen in Hloop. simpl in Hloop.
      exists kept, warned'. split; [done|]. simpl.
      rewrite <- app_assoc in Hperm. simpl in Hperm.
      split; [by rewrite Hperm, Hfront|].
      intros Hnd.
      assert (Hx_front : x ∉ front).
      { apply NoDup_app in Hnd as (_ & Hnd & _). intros Hin. apply (Hnd x Hin). left. }
      rewrite Hsame in Heq by done. rewrite Heq; [by rewrite <- app_assoc|].
      rewrite <- app_assoc. simpl.
      apply NoDup_app in Hnd as (Hnd1 & Hnd2 & Hnd3).
      apply NoDup_cons in Hnd3 as [_ Hnd3].
      apply NoDup_app. split; [done|]. split; [|done].
      intros z Hz Hz'. apply (Hnd2 z Hz). by right.
Qed.

Lemma stepping_filter_app (cfg : Config) (unread : bool) (pre rest : list string) :
  stepping_filter cfg unread (pre ++ rest) =
  stepping_filter cfg unread pre ++ stepping_filter cfg (unread_after cfg unread pre) rest.
Proof.
  revert unread. induction pre as [|x pre IH]; intros unread; simpl; [done|].
  destruct unread, (disabled cfg x); simpl; by rewrite IH.
Qed.

Lemma unread_after_snoc (cfg : Config) (unread : bool) (pre : list string) (x : string) :
  unread_after cfg unread (pre ++ [x]) =
  negb (unread_after cfg unread pre) && disabled cfg x.
Proof. revert unread. induction pre as [|y pre IH]; intros unread; simpl; [done|apply IH]. Qed.

Lemma disabled_run_before_snoc (cfg : Config) (pre : list string) (x : string) :
  disabled_run_before cfg (pre ++ [x]) =
  if disabled cfg x then S (disabled_run_before cfg pre) else 0.
Proof. unfold disabled_run_before. by rewrite rev_unit. Qed.

(** An entry is stepped over exactly when an odd number of disabled
    reviewers in a row comes right before it. *)
Lemma unread_after_odd (cfg : Config) (pre : list string) :
  unread_after cfg false pre = Nat.odd (disabled_run_before cfg pre).
Proof.
  induction pre as [|x pre IH] using rev_ind; [done|].
  rewrite unread_after_snoc, disabled_run_before_snoc, IH.
  destruct (disabled cfg x); simpl.
  - rewrite andb_true_r, Nat.negb_odd. by rewrite Nat.odd_succ.
  - by rewrite andb_false_r.
Qed.

Lemma stepping_filter_elem_of (cfg : Config) (unread : bool) (l : list string) (x : string) :
  x ∈ stepping_filter cfg unread l → x ∈ l.
Proof.
  revert unread. induction l as [|y l IH]; intros unread; simpl; [done|].
  destruct (unread || negb (disabled cfg y)).
  - intros [->|Hin]%elem_of_cons; [left | right; by eapply IH].
  - intros Hin. right. by eapply IH.
Qed.

(** In a list of distinct names, a disabled reviewer stays exactly when
    it is stepped over. *)
Lemma stepping_filter_keeps (cfg : Config) (pre post : list string) (d : string) :
  NoDup (pre ++ d :: post) →
  enabled_in cfg d = Some false →
  d ∈ stepping_filter cfg false (pre ++ d :: post) ↔
  Nat.Odd (disabled_run_before cfg pre).
Proof.
  intros Hnd Hd. rewrite stepping_filter_app, <- Nat.odd_spec, <- unread_after_odd.
  apply NoDup_app in Hnd as (_ & Hpre & Hpost%NoDup_cons).
  destruct Hpost as [Hpost _].
  destruct (unread_after cfg false pre); simpl.
  - split; [done|]. intros _. apply elem_of_app. right. left.
  - unfold disabled. rewrite Hd, bool_decide_eq_true_2 by done. simpl.
    split; [|done]. intros [Hin|Hin]%elem_of_app.
    + apply stepping_filter_elem_of in Hin. destruct (Hpre d Hin). left.
    + apply stepping_filter_elem_of in Hin. by destruct Hpost.
Qed.

Section MainProperties.
Variable rt : Runtime.
Variable generate : ReportArgs → string.

(** C9, as the code has it.  Each removal makes the iterator step over
    the next entry.  When the implementer is enabled and every listed
    name has its flag, the loop leaves, up to order, the list read from
    the left with each disabled entry that is read dropped and the entry
    after it kept unread, and [main] goes on with what is left as its
    reviewers (or exits when nothing is left).  For distinct names the
    order is kept too, and a disabled reviewer stays exactly when an odd
    number of disabled reviewers in a row comes right before it: in a
    run of disabled reviewers the first, third, ... go and the second,
    fourth, ... stay, so of two disabled neighbours exactly one stays. *)
Theorem main_keeps_second_disabled (prompt implementer : string)
    (reviewer_list context_file : list string) (output : option string)
    (cfg : Config) (no_iteration : bool) (w : World) :
  enabled_in cfg implementer = Some true →
  Forall (λ x, is_Some (enabled_in cfg x)) reviewer_list →
  ∃ kept warned,
    skip_disabled cfg reviewer_list = Some (Ok (kept, warned)) ∧
    kept ≡ₚ stepping_filter cfg false reviewer_list ∧
    main rt generate prompt implementer reviewer_list context_file output
      cfg no_iteration w =
    Some (match kept with
          | [] => SysExit 1
          | _ => Ran kept warned
                   (run_review_workflow rt generate prompt implementer kept
                      context_file output cfg (negb no_iteration) w)
          end) ∧
    (NoDup reviewer_list →
     kept = stepping_filter cfg false reviewer_list ∧
     (∀ pre d post,
        reviewer_list = pre ++ d :: post → enabled_in cfg d = Some false →
        d ∈ kept ↔ Nat.Odd (disabled_run_before cfg pre)) ∧
     (∀ pre d1 d2 post,
        reviewer_list = pre ++ d1 :: d2 :: post →
        enabled_in cfg d1 = Some false → enabled_in cfg d2 = Some false →
        d2 ∈ kept ↔ d1 ∉ kept)).
Proof.
  intros Himpl Hall.
  destruct (skip_disabled_loop_stepping cfg (S (length reviewer_list)) [] reviewer_list [])
    as (kept & warned & Hloop & Hperm & Heq); [lia | done |].
  change (skip_disabled cfg reviewer_list = Some (Ok (kept, warned))) in Hloop.
  simpl in Hperm, Heq.
  exists kept, warned. split; [exact Hloop|]. split; [exact Hperm|]. split.
  - unfold main. apply enabled_in_Some in Himpl as (entry & -> & ->).
    rewrite Hloop. by destruct kept.
  - intros Hnd. specialize (Heq Hnd). split; [exact Heq|].
    assert (Hkeeps : ∀ pre d post,
              reviewer_list = pre ++ d :: post → enabled_in cfg d = Some false →
              d ∈ kept ↔ Nat.Odd (disabled_run_before cfg pre)).
    { intros pre d post Hl Hd. rewrite Heq, Hl. apply stepping_filter_keeps; [|done].
      by rewrite <- Hl. }
    split; [exact Hkeeps|].
    intros pre d1 d2 post Hl Hd1 Hd2.
    rewrite (Hkeeps pre d1 (d2 :: post) Hl Hd1).
    rewrite (Hkeeps (pre ++ [d1]) d2 post); [|by rewrite <- app_assoc|done].
    rewrite disabled_run_before_snoc. unfold disabled.
    rewrite Hd1, bool_decide_eq_true_2 by done.
    rewrite Nat.Odd_succ. split.
    + intros Heven Hodd. by eapply Nat.Even_Odd_False.
    + intros Hodd. by destruct (Nat.Even_or_Odd (disabled_run_before cfg pre)).
Qed.
End MainProperties.

(** The claim C9 as stated fails: in [claude, codex, claude] with claude
    and codex disabled, the pair (codex, claude) is adjacent and disabled,
    yet the loop removes that claude; only codex remains. *)
Lemma skip_disabled_counterexample :
  enabled_in gemini_only_config "codex" = Some false ∧
  enabled_in gemini_only_config "claude" = Some false ∧
  skip_disabled gemini_only_config (["claude"] ++ "codex" :: "claude" :: []) =
    Some (Ok (["codex"], ["claude"; "claude"])) ∧
  "claude" ∉ ["codex"].
Proof.
  repeat split; try (vm_compute; reflexivity).
  intros Hin. apply elem_of_cons in Hin as [Hin|Hin]; [discriminate Hin|].
  by apply elem_of_nil in Hin.
Qed.

(** C9 at work: gemini is enabled, claude and codex are not; claude is
    removed, codex is stepped over and reviews all the same. *)
Lemma main_keeps_second_disabled_witness :
  ∃ kept warned,
    skip_disabled gemini_only_config ["gemini"; "claude"; "codex"] =
      Some (Ok (kept, warned)) ∧
    ("claude" ∉ kept) ∧ "codex" ∈ kept ∧
    main (scenario_runtime passive_exec) (λ _, "report") "fib" "gemini"
      ["gemini"; "claude"; "codex"] [] None gemini_only_config false empty_world =
    Some (Ran kept warned
            (run_review_workflow (scenario_runtime passive_exec) (λ _, "report")
               "fib" "gemini" kept [] None gemini_only_config (negb false)
               empty_world)).
Proof.
  assert (Himpl : enabled_in gemini_only_config "gemini" = Some true)
    by (vm_compute; reflexivity).
  assert (Hclaude : enabled_in gemini_only_config "claude" = Some false)
    by (vm_compute; reflexivity).
  assert (Hcodex : enabled_in gemini_only_config "codex" = Some false)
    by (vm_compute; reflexivity).
  assert (Hall : Forall (λ x, is_Some (enabled_in gemini_only_config x))
                   ["gemini"; "claude"; "codex"]).
  { apply Forall_cons_2; [by rewrite Himpl; eexists|].
    apply Forall_cons_2; [by rewrite Hclaude; eexists|].
    apply Forall_cons_2; [by rewrite Hcodex; eexists|]. apply Forall_nil_2. }
  assert (Hnd : NoDup ["gemini"; "claude"; "codex"]).
  { apply (bool_decide_unpack _). vm_compute. exact I. }
  destruct (main_keeps_second_disabled (scenario_runtime passive_exec) (λ _, "report")
              "fib" "gemini" ["gemini"; "claude"; "codex"] [] None gemini_only_config
              false empty_world Himpl Hall)
    as (kept & warned & Hloop & _ & Hmain & Hdistinct).
  destruct (Hdistinct Hnd) as (_ & Hkeeps & Hpair).
  assert (Hout : "claude" ∉ kept).
  { rewrite (Hkeeps ["gemini"] "claude" ["codex"] eq_refl Hclaude).
    rewrite <- Nat.odd_spec. by vm_compute. }
  assert (Hin : "codex" ∈ kept)
    by exact (proj2 (Hpair ["gemini"] "claude" "codex" [] eq_refl Hclaude Hcodex) Hout).
  exists kept, warned. split; [exact Hloop|]. split; [exact Hout|]. split; [exact Hin|].
  rewrite Hmain. destruct kept; [by apply elem_of_nil in Hin | done].
Defined.

(** The same list evaluated. *)
Example skip_disabled_second_kept :
  skip_disabled gemini_only_config ["gemini"; "claude"; "codex"] =
  Some (Ok (["gemini"; "codex"], ["claude"])).
Proof. vm_compute. reflexivity. Qed.

(** Runs of disabled reviewers: of four in a row the second and the
    fourth stay; an enabled reviewer that is stepped over starts the
    count again. *)
Example skip_disabled_runs :
  skip_disabled letters_config ["a"; "b"; "c"; "d"] =
    Some (Ok (["b"; "d"], ["a"; "c"])) ∧
  skip_disabled letters_config ["a"; "gpt"; "c"; "d"] =
    Some (Ok (["gpt"; "d"], ["a"; "c"])) ∧
  skip_disabled letters_config ["gpt"; "a"; "b"; "c"] =
    Some (Ok (["gpt"; "b"], ["a"; "c"])).
Proof. repeat split; vm_compute; reflexivity. Qed.

(** * Further properties of the code *)

(** ** ai_clients.py *)

Section ClientProperties.
Variable rt : Runtime.

Lemma run_and_wrap_well_formed cmd model name fs t a fs' :
  run_and_wrap rt cmd model name fs = Returns t a fs' → well_formed_response name a.
Proof.
  unfold run_and_wrap. destruct cmd as [cmd|e]; [|done].
  destruct (exec rt cmd fs) as [t0 c el fs0| |]; [|done..].
  intros [= _ <- _]. split; [done|]. unfold response_of; simpl.
  destruct (decide (returncode c = 0%Z)) as [Hrc|Hrc].
  - rewrite bool_decide_eq_true_2, bool_decide_eq_false_2 by (done || by intros ?).
    done.
  - rewrite bool_decide_eq_false_2, bool_decide_eq_true_2 by done. done.
Qed.

Lemma implement_well_formed self prompt context_files fs t a fs' :
  implement rt self prompt context_files fs = Returns t a fs' →
  well_formed_response (name self) a.
Proof.
  unfold implement. destruct (cls self).
  - apply run_and_wrap_well_formed.
  - destruct (write_file _ _ _ _) as [[e|] fs1]; [done|].
    destruct (run_and_wrap _ _ _ _ _) as [t0 a0 fs0| |] eqn:E; [|done..].
    intros [= _ <- _]. by eapply run_and_wrap_well_formed.
  - by intros [= _ <- _].
Qed.

Lemma review_well_formed self code original_prompt context fs t a fs' :
  review rt self code original_prompt context fs = Returns t a fs' →
  well_formed_response (name self) a.
Proof.
  unfold review. destruct (cls self).
  - apply run_and_wrap_well_formed.
  - apply run_and_wrap_well_formed.
  - by intros [= _ <- _].
Qed.

Lemma improve_file_well_formed self call file_path review_output original_prompt
    fs t a fs' :
  improve_file rt self = Some call →
  call file_path review_output original_prompt fs = Returns t a fs' →
  well_formed_response (name self) a.
Proof.
  unfold improve_file.
  destruct (cls self); intros [= <-]; apply run_and_wrap_well_formed.
Qed.

(** X1. Every response a client method returns, in any runtime, carries
    the client's own name and has [errors] set exactly when [success] is
    false: for [implement], [review] and [improve_file] of all three
    classes. *)
Theorem client_responses_well_formed (self : BaseAIClient) :
  (∀ prompt context_files fs t a fs',
     implement rt self prompt context_files fs = Returns t a fs' →
     well_formed_response (name self) a) ∧
  (∀ code original_prompt context fs t a fs',
     review rt self code original_prompt context fs = Returns t a fs' →
     well_formed_response (name self) a) ∧
  (∀ call file_path review_output original_prompt fs t a fs',
     improve_file rt self = Some call →
     call file_path review_output original_prompt fs = Returns t a fs' →
     well_formed_response (name self) a).
Proof.
  split; [|split].
  - apply implement_well_formed.
  - apply review_well_formed.
  - apply improve_file_well_formed.
Qed.

(** X4. [create_client] applied along a list of names: on success the
    clients come back in the order of the names, each with the name as
    given, the configuration entry of that name, and the class of the
    lower-cased name; on failure the exception is the [KeyError] of a
    listed name without an entry or the [ValueError] of a listed name of
    no known class. *)
Lemma create_client_spec (ai_name : string) (entry : AIConfig) :
  match create_client rt ai_name entry with
  | Ok c => name c = ai_name ∧ config c = entry ∧
            client_class (str_lower rt ai_name) = Some (cls c)
  | Raise e => e = ValueError ("Unknown AI: " +:+ ai_name) ∧
               client_class (str_lower rt ai_name) = None
  end.
Proof.
  unfold create_client, client_class.
  repeat (case_decide; [done|]). done.
Qed.

Theorem create_clients_spec (cfg : Config) (names : list string) :
  match create_clients rt cfg names with
  | Ok clients =>
      name <$> clients = names ∧
      Forall (λ c, ai cfg !! name c = Some (config c) ∧
                   client_class (str_lower rt (name c)) = Some (cls c)) clients
  | Raise e =>
      ∃ n, n ∈ names ∧
        ((e = KeyError n ∧ ai cfg !! n = None) ∨
         (e = ValueError ("Unknown AI: " +:+ n) ∧ client_class (str_lower rt n) = None))
  end.
Proof.
  induction names as [|n names IH]; simpl; [done|].
  destruct (ai cfg !! n) as [entry|] eqn:Hentry; simpl.
  2:{ exists n. split; [by left|]. by left. }
  pose proof (create_client_spec n entry) as Hc.
  destruct (create_client rt n entry) as [c|e]; simpl.
  2:{ destruct Hc as [-> Hc]. exists n. split; [by left|]. by right. }
  destruct Hc as (Hn & Hcfg & Hcls).
  destruct (create_clients rt cfg names) as [clients|e]; simpl.
  - destruct IH as [IH1 IH2]. split; [f_equal; [exact Hn | exact IH1]|].
    constructor; [|done]. by rewrite Hn, Hcfg.
  - destruct IH as (n' & Hin & IH). exists n'. split; [by right | done].
Qed.
End ClientProperties.

(** X1 at work: a review by gemini that the agent answers, and one it
    fails. *)
Lemma client_responses_well_formed_witness :
  ∃ t a fs' t2 a2 fs2,
    review (scenario_runtime passive_exec) gemini_client "x = 1" "fib" "" ∅ =
      Returns t a fs' ∧
    well_formed_response "gemini" a ∧ success a = true ∧
    review (scenario_runtime failing_exec) gemini_client "x = 1" "fib" "" ∅ =
      Returns t2 a2 fs2 ∧
    well_formed_response "gemini" a2 ∧ success a2 = false.
Proof.
  eexists _, _, _, _, _, _.
  assert (Hrun : ∀ x y : Awaited AIResponse, x = y → y = x) by done.
  split; [apply Hrun; vm_compute; reflexivity|].
  split; [|split; [reflexivity|]].
  { eapply (proj1 (proj2 (client_responses_well_formed
              (scenario_runtime passive_exec) gemini_client))
              "x = 1" "fib" "" ∅).
    vm_compute. reflexivity. }
  split; [apply Hrun; vm_compute; reflexivity|].
  split; [|reflexivity].
  eapply (proj1 (proj2 (client_responses_well_formed
            (scenario_runtime failing_exec) gemini_client))
            "x = 1" "fib" "" ∅).
  vm_compute. reflexivity.
Defined.

(** ** reviewer.py *)

Lemma gather_results (tasks : list (Awaited AIResponse)) t rs :
  gather tasks = Some (t, rs) → rs = omap task_result tasks ∧ length rs = length tasks.
Proof.
  revert t rs. induction tasks as [|task tasks IH]; intros t rs H; simpl in H.
  - by injection H as <- <-.
  - destruct task as [t0 a ?|t0 e ?|]; [| |done];
      (destruct (gather tasks) as [[t' rs']|] eqn:E; [|done]);
      injection H as <- <-; destruct (IH _ _ eq_refl) as [-> Hlen];
      simpl; by rewrite Hlen.
Qed.

Lemma wait_for_results (tasks : list (Awaited AIResponse)) timeout rs :
  wait_for tasks timeout = Some rs →
  rs = omap task_result tasks ∧ length rs = length tasks.
Proof.
  unfold wait_for. destruct (decide (timeout ≤ 0)%Z).
  - destruct tasks; [|done]. by intros [= <-].
  - destruct (gather tasks) as [[t rs']|] eqn:E; [|done].
    destruct (decide _); [|done]. intros [= <-]. by eapply gather_results.
Qed.

Lemma collect_successful_accounts acc printed reviews :
  length (collect_successful acc printed reviews).1 +
  length (collect_successful acc printed reviews).2 =
  length acc + length printed + length reviews.
Proof.
  revert acc printed. induction reviews as [|[a|e] reviews IH]; intros acc printed; simpl.
  - lia.
  - destruct (success a); rewrite IH, length_app; simpl; lia.
  - rewrite IH, length_app; simpl; lia.
Qed.

Lemma collect_successful_no_timeout acc printed reviews :
  Forall (λ d, ∀ T, d ≠ ReviewTimedOut T) printed →
  Forall (λ d, ∀ T, d ≠ ReviewTimedOut T) (collect_successful acc printed reviews).2.
Proof.
  revert acc printed. induction reviews as [|[a|e] reviews IH]; intros acc printed H; simpl.
  - done.
  - destruct (success a); apply IH; [done|].
    apply Forall_app. split; [done|]. by constructor.
  - apply IH. apply Forall_app. split; [done|]. by constructor.
Qed.

Section ReviewerAccounting.
Variable rt : Runtime.

(** The returned list is empty (timeout) or the successes in reviewer order. *)
Lemma review_code_result (self : ParallelReviewer) (implementation : AIResponse)
    (reviewers : list BaseAIClient) (original_prompt context : string) (fs : FS) :
  (review_code rt self implementation reviewers original_prompt context fs).1 = [] ∨
  (review_code rt self implementation reviewers original_prompt context fs).1 =
    omap (λ reviewer, successful_response
            (review rt reviewer (output implementation) original_prompt context fs))
         reviewers.
Proof.
  unfold review_code.
  destruct (wait_for _ _) as [rs|] eqn:E; [|by left].
  right. apply wait_for_results in E as [-> _].
  rewrite collect_successful_fst, omap_task_result_successful. simpl.
  unfold review_tasks. apply omap_fmap_list.
Qed.

(** X5. [review_code] either reports the batch timeout, returning
    nothing and printing that one message, or accounts for every reviewer
    exactly once: each reviewer is one entry of the returned list or one
    printed failure, and no timeout message is printed. *)
Theorem review_code_accounts (self : ParallelReviewer) (implementation : AIResponse)
    (reviewers : list BaseAIClient) (original_prompt context : string) (fs : FS) :
  review_code rt self implementation reviewers original_prompt context fs =
    ([], [ReviewTimedOut (timeout_seconds self)]) ∨
  (length (review_code rt self implementation reviewers original_prompt context fs).1 +
   length (review_code rt self implementation reviewers original_prompt context fs).2 =
   length reviewers ∧
   Forall (λ d, ∀ T, d ≠ ReviewTimedOut T)
     (review_code rt self implementation reviewers original_prompt context fs).2).
Proof.
  unfold review_code.
  destruct (wait_for _ _) as [rs|] eqn:E; [|by left].
  right. apply wait_for_results in E as [_ Hlen]. split.
  - rewrite collect_successful_accounts, Hlen. unfold review_tasks.
    rewrite length_fmap. simpl. lia.
  - apply collect_successful_no_timeout. constructor.
Qed.

Lemma successful_response_review (reviewer : BaseAIClient) code prompt context fs a :
  successful_response (review rt reviewer code prompt context fs) = Some a →
  ai_name a = name reviewer ∧ success a = true ∧ cls reviewer ≠ CodexClient.
Proof.
  intros H. unfold successful_response in H.
  destruct (review rt reviewer code prompt context fs) as [t a' fs'| |] eqn:E; [|done..].
  destruct (success a') eqn:Hs; [|done]. injection H as <-.
  destruct (review_well_formed rt _ _ _ _ _ _ _ _ E) as [Hname _].
  split; [done|]. split; [done|]. intros Hcls.
  unfold review in E. rewrite Hcls in E. injection E as _ <- _. done.
Qed.

(** X6. Every review [review_code] returns has [success = true], carries
    the name of one of the reviewers, and the names of the returned
    reviews follow the order of the reviewer list; no review of a
    [CodexClient] is ever returned. *)
Theorem review_code_reviews (self : ParallelReviewer) (implementation : AIResponse)
    (reviewers : list BaseAIClient) (original_prompt context : string) (fs : FS) :
  sublist (ai_name <$> (review_code rt self implementation reviewers
                          original_prompt context fs).1)
          (name <$> reviewers) ∧
  Forall (λ a, success a = true ∧
               ∃ reviewer, reviewer ∈ reviewers ∧ name reviewer = ai_name a ∧
                           cls reviewer ≠ CodexClient)
    (review_code rt self implementation reviewers original_prompt context fs).1.
Proof.
  destruct (review_code_result self implementation reviewers original_prompt context fs)
    as [-> | ->].
  { split; [apply sublist_nil_l | constructor]. }
  split.
  - induction reviewers as [|r rs IH]; simpl; [constructor|].
    destruct (successful_response _) as [a|] eqn:E; simpl.
    + apply successful_response_review in E as (-> & _). by constructor.
    + by constructor.
  - apply Forall_forall. intros a Ha.
    apply list_elem_of_omap in Ha as (reviewer & Hin & Ha).
    apply successful_response_review in Ha as (Hn & Hs & Hc).
    split; [done|]. by exists reviewer.
Qed.
End ReviewerAccounting.

Lemma filter_Forall_id {A} (P : A → Prop) `{!∀ x, Decision (P x)} (l : list A) :
  Forall P l → filter P l = l.
Proof. induction 1 as [|a l Ha _ IH]; [done|]. by rewrite filter_cons_True, IH. Qed.

Section ReviewsAndAgents.
Variable rt : Runtime.

Lemma create_clients_class_by_name (cfg : Config) (names : list string) clients :
  create_clients rt cfg names = Ok clients →
  Forall (λ c, client_class (str_lower rt (name c)) = Some (cls c)) clients.
Proof.
  revert clients. induction names as [|n names IH]; intros clients H; simpl in H.
  - injection H as <-. constructor.
  - destruct (ai cfg !! n) as [entry|]; [|done]. simpl in H.
    pose proof (create_client_spec rt n entry) as Hc.
    destruct (create_client rt n entry) as [c|e]; [|done]. simpl in H.
    destruct (create_clients rt cfg names) as [cs|e]; [|done]. simpl in H.
    injection H as <-. destruct Hc as (Hn & _ & Hcls).
    constructor; [by rewrite Hn | by apply IH].
Qed.

Lemma review_code_elem self implementation reviewers original_prompt context fs a :
  a ∈ (review_code rt self implementation reviewers original_prompt context fs).1 →
  ∃ reviewer, reviewer ∈ reviewers ∧ name reviewer = ai_name a ∧
              success a = true ∧ cls reviewer ≠ CodexClient.
Proof.
  destruct (review_code_result rt self implementation reviewers original_prompt context fs)
    as [-> | ->]; [by intros ?%elem_of_nil|].
  intros Ha. apply list_elem_of_omap in Ha as (reviewer & Hin & Ha).
  apply successful_response_review in Ha as (Hn & Hs & Hc). by exists reviewer.
Qed.

Lemma find_by_name_exists (reviewers : list BaseAIClient) (who : string) reviewer :
  reviewer ∈ reviewers → name reviewer = who →
  ∃ r, List.find (λ r, bool_decide (name r = who)) reviewers = Some r ∧ name r = who ∧
       r ∈ reviewers.
Proof.
  intros Hin Hname.
  destruct (List.find _ reviewers) as [r|] eqn:Hfind.
  - apply find_some in Hfind as [Hr Hfind]. exists r.
    split; [done|]. split; [by apply bool_decide_eq_true in Hfind|].
    by apply list_elem_of_In.
  - apply list_elem_of_In in Hin.
    pose proof (find_none _ _ Hfind _ Hin) as Hf. simpl in Hf.
    by apply bool_decide_eq_false in Hf.
Qed.

Lemma returned_reviews_capable (cfg : Config) (names : list string)
    (reviewers : list BaseAIClient) (self : ParallelReviewer)
    (implementation : AIResponse) (original_prompt context : string) (fs : FS) :
  create_clients rt cfg names = Ok reviewers →
  Forall (λ review, capable reviewers review = true)
    (review_code rt self implementation reviewers original_prompt context fs).1.
Proof.
  intros Hcreate. apply Forall_forall. intros a Ha.
  apply review_code_elem in Ha as (reviewer & Hin & Hname & _ & Hcls).
  destruct (find_by_name_exists reviewers (ai_name a) reviewer Hin Hname)
    as (r & Hfind & Hr & Hrin).
  unfold capable. rewrite Hfind.
  pose proof (create_clients_class_by_name _ _ _ Hcreate) as Hclasses.
  rewrite Forall_forall in Hclasses.
  pose proof (Hclasses _ Hin) as H1. pose proof (Hclasses _ Hrin) as H2.
  rewrite Hr, <- Hname, H1 in H2. injection H2 as H2.
  unfold has_improve_file. rewrite <- H2. by destruct (cls reviewer).
Qed.

(** X7. For clients built by [create_client] from a list of names, every
    review that [review_code] returns belongs to an agent that has
    [improve_file]: the lookup by name finds a client, and that client is
    not a [CodexClient], whose reviews never succeed.  The two [continue]
    cases of the improvement loop are therefore never taken on such
    reviews: a loop that runs to its end has invoked [improve_file] once
    for every returned review, in the order of the reviews, each call on
    the file system the call before it left, and its dictionary is the
    aggregate of their responses. *)
Theorem returned_reviews_are_capable (cfg : Config) (names : list string)
    (reviewers : list BaseAIClient) (self : ParallelReviewer)
    (implementation : AIResponse) (original_prompt context : string) (fs0 : FS) :
  create_clients rt cfg names = Ok reviewers →
  Forall (λ review, capable reviewers review = true)
    (review_code rt self implementation reviewers original_prompt context fs0).1 ∧
  ∀ code_file prompt logs w logs' w',
    improve_loop rt reviewers code_file prompt
      (review_code rt self implementation reviewers original_prompt context fs0).1
      logs w = Normal logs' w' →
    ∃ done,
      improved_in_turn rt reviewers code_file prompt
        (review_code rt self implementation reviewers original_prompt context fs0).1
        (fs w) done (fs w') ∧
      logs' = aggregate_loop logs done.*2.
Proof.
  intros Hcreate.
  pose proof (returned_reviews_capable cfg names reviewers self implementation
                original_prompt context fs0 Hcreate) as Hall.
  split; [exact Hall|].
  intros code_file prompt logs w logs' w' Hloop.
  pose proof (improve_loop_trace rt reviewers code_file prompt
    (review_code rt self implementation reviewers original_prompt context fs0).1 logs w)
    as Htrace.
  rewrite Hloop in Htrace. destruct Htrace as (done & Hturn & Hlogs & _).
  rewrite filter_Forall_id in Hturn by done. by exists done.
Qed.
End ReviewsAndAgents.

(** X7 at work: gemini and codex review; only the review of gemini comes
    back, gemini has [improve_file], and the loop runs its process once. *)
Lemma returned_reviews_are_capable_witness :
  create_clients (scenario_runtime logging_exec) scenario_config ["gemini"; "codex"] =
    Ok [gemini_client; codex_client] ∧
  Forall (λ review, capable [gemini_client; codex_client] review = true)
    (review_code (scenario_runtime logging_exec) five_seconds implementation_done
       [gemini_client; codex_client] "fib" "" ∅).1 ∧
  ∃ logs' w',
    improve_loop (scenario_runtime logging_exec) [gemini_client; codex_client]
      "/tmp/code.py" "fib"
      (review_code (scenario_runtime logging_exec) five_seconds implementation_done
         [gemini_client; codex_client] "fib" "" ∅).1 ∅ empty_world = Normal logs' w' ∧
    fs w' !! "/var/log/agents" = Some "gemini;" ∧
    ∃ done,
      improved_in_turn (scenario_runtime logging_exec) [gemini_client; codex_client]
        "/tmp/code.py" "fib"
        (review_code (scenario_runtime logging_exec) five_seconds implementation_done
           [gemini_client; codex_client] "fib" "" ∅).1
        (fs empty_world) done (fs w') ∧
      logs' = aggregate_loop ∅ done.*2.
Proof.
  assert (H : create_clients (scenario_runtime logging_exec) scenario_config
                ["gemini"; "codex"] = Ok [gemini_client; codex_client]).
  { vm_compute. reflexivity. }
  destruct (returned_reviews_are_capable (scenario_runtime logging_exec)
              scenario_config ["gemini"; "codex"] [gemini_client; codex_client]
              five_seconds implementation_done "fib" "" ∅ H) as [Hall Hloop].
  split; [exact H|]. split; [exact Hall|].
  destruct (improve_loop (scenario_runtime logging_exec) [gemini_client; codex_client]
              "/tmp/code.py" "fib"
              (review_code (scenario_runtime logging_exec) five_seconds implementation_done
                 [gemini_client; codex_client] "fib" "" ∅).1 ∅ empty_world)
    as [logs' w'|e w'|] eqn:Hrun; [|by vm_compute in Hrun..].
  exists logs', w'. split; [reflexivity|]. split.
  - vm_compute in Hrun. injection Hrun as _ <-. vm_compute. reflexivity.
  - exact (Hloop "/tmp/code.py" "fib" ∅ empty_world logs' w' Hrun).
Defined.

(** ** aggregator.py *)

Lemma aggregate_loop_union (m : gmap string string) (l : list AIResponse) :
  aggregate_loop m l = aggregate_loop ∅ l ∪ m.
Proof.
  induction l as [|r l IH] using rev_ind.
  - simpl. by rewrite (left_id_L ∅ (∪)).
  - rewrite !aggregate_loop_snoc. destruct (success r); [|done].
    by rewrite IH, insert_union_l.
Qed.

Lemma gmap_size_union_le (m1 m2 : gmap string string) :
  size (m1 ∪ m2) ≤ size m1 + size m2.
Proof.
  rewrite <- !size_dom, dom_union_L, size_union_alt.
  assert (size (dom m2 ∖ dom m1) ≤ size (dom m2)); [|lia].
  apply subseteq_size. intros x Hx. by apply elem_of_difference in Hx as [? _].
Qed.

(** X8. Aggregating a concatenation: the dictionary is the dictionary of
    the second part laid over that of the first (on a shared name the
    second part wins), [total_reviews] adds up, and [successful_reviews]
    is at most the sum. *)
Theorem aggregate_app (l1 l2 : list AIResponse) :
  reviews_by_ai (aggregate (l1 ++ l2)) =
    reviews_by_ai (aggregate l2) ∪ reviews_by_ai (aggregate l1) ∧
  total_reviews (aggregate (l1 ++ l2)) =
    total_reviews (aggregate l1) + total_reviews (aggregate l2) ∧
  successful_reviews (aggregate (l1 ++ l2)) ≤
    successful_reviews (aggregate l1) + successful_reviews (aggregate l2).
Proof.
  unfold aggregate; simpl.
  assert (H : aggregate_loop ∅ (l1 ++ l2) = aggregate_loop ∅ l2 ∪ aggregate_loop ∅ l1).
  { by rewrite aggregate_loop_app, aggregate_loop_union. }
  split; [done|]. split; [apply length_app|].
  rewrite H. etrans; [apply gmap_size_union_le|]. lia.
Qed.

Lemma aggregate_loop_lookup_None (l : list AIResponse) (n : string) :
  n ∉ ai_name <$> filter (λ r, success r = true) l →
  aggregate_loop ∅ l !! n = None.
Proof.
  intros Hn. apply eq_None_not_Some. intros [o Ho].
  apply aggregate_loop_lookup in Ho as [(l1 & r & l2 & -> & Hs & <- & _) | [Ho _]];
    [|done].
  apply Hn. apply list_elem_of_fmap. exists r. split; [done|].
  apply list_elem_of_filter. split; [done|]. apply elem_of_app. right. by left.
Qed.

Lemma aggregate_loop_size_NoDup (l : list AIResponse) :
  NoDup (ai_name <$> filter (λ r, success r = true) l) →
  size (aggregate_loop ∅ l) = length (filter (λ r, success r = true) l).
Proof.
  induction l as [|r l IH] using rev_ind; intros Hnd.
  - done.
  - rewrite filter_app, filter_cons, filter_nil in Hnd.
    rewrite aggregate_loop_snoc, filter_app, filter_cons, filter_nil.
    destruct (success r) eqn:Hs.
    + rewrite decide_True in Hnd by done. rewrite decide_True by done.
      rewrite fmap_app in Hnd. apply NoDup_app in Hnd as (Hnd & Hdisj & _).
      rewrite length_app, map_size_insert_None, IH; [simpl; lia | done |].
      apply aggregate_loop_lookup_None. intros Hin. apply (Hdisj _ Hin). by left.
    + rewrite decide_False in Hnd by done. rewrite decide_False by done.
      rewrite app_nil_r in *. by apply IH.
Qed.

(** X9. When the successful responses have pairwise distinct agent names,
    [successful_reviews] is the number of responses with
    [success = true]; failed responses may repeat names freely. *)
Theorem aggregate_counts_successes (reviews : list AIResponse) :
  NoDup (ai_name <$> filter (λ r, success r = true) reviews) →
  successful_reviews (aggregate reviews) =
    length (filter (λ r, success r = true) reviews).
Proof. intros Hnd. unfold aggregate; simpl. by apply aggregate_loop_size_NoDup. Qed.

Section ThemesMore.
Variable lower : string → string.

Lemma count_mentions_outputs keyword reviews :
  count_mentions lower keyword reviews =
  length (filter (λ o, str_in (lower keyword) (lower o) = true) (output <$> reviews)).
Proof.
  rewrite count_mentions_filter. induction reviews as [|r reviews IH]; [done|].
  rewrite fmap_cons, !filter_cons. unfold mentions at 1.
  destruct (decide _); simpl; by rewrite IH.
Qed.

Lemma themes_loop_ext acc kws reviews reviews' :
  (∀ k, count_mentions lower k reviews = count_mentions lower k reviews') →
  themes_loop lower acc kws reviews = themes_loop lower acc kws reviews'.
Proof.
  intros Hcount. revert acc. induction kws as [|k kws IH]; intros acc; simpl; [done|].
  rewrite Hcount. destruct (decide _); apply IH.
Qed.

(** X10. [find_common_themes] looks at the outputs only, as a bag:
    two review lists whose outputs are the same up to order give the same
    themes, whatever their [success] flags, names and other fields. *)
Theorem find_common_themes_outputs (reviews reviews' : list AIResponse) :
  output <$> reviews ≡ₚ output <$> reviews' →
  find_common_themes lower reviews = find_common_themes lower reviews'.
Proof.
  intros Hperm. apply themes_loop_ext. intros k.
  rewrite !count_mentions_outputs. by rewrite Hperm.
Qed.

Lemma count_mentions_le keyword reviews :
  count_mentions lower keyword reviews ≤ length reviews.
Proof. rewrite count_mentions_filter. apply length_filter. Qed.

(** X11. Bounds of [find_common_themes]: at most one theme per keyword
    (thirteen), and none at all when fewer than two reviews are given. *)
Theorem find_common_themes_bounds (reviews : list AIResponse) :
  length (find_common_themes lower reviews) ≤ 13 ∧
  (length reviews < 2 → find_common_themes lower reviews = []).
Proof.
  unfold find_common_themes. rewrite themes_loop_closed. simpl app. split.
  - rewrite length_fmap. etrans; [apply length_filter|]. done.
  - intros Hlen.
    destruct (filter _ keywords) as [|k ks] eqn:E; [done|].
    assert (Hk : k ∈ filter (λ k, 2 ≤ count_mentions lower k reviews) keywords)
      by (rewrite E; by left).
    apply list_elem_of_filter in Hk as [Hk _].
    pose proof (count_mentions_le k reviews). lia.
Qed.
End ThemesMore.

(** X11 at work: a single review, although it mentions two keywords. *)
Lemma find_common_themes_bounds_witness :
  length [response true "A security and performance problem." "claude"] < 2 ∧
  find_common_themes ascii_lower
    [response true "A security and performance problem." "claude"] = [].
Proof.
  assert (Hlen : length [response true "A security and performance problem." "claude"] < 2)
    by (simpl; lia).
  split; [exact Hlen|].
  exact (proj2 (find_common_themes_bounds ascii_lower
                  [response true "A security and performance problem." "claude"]) Hlen).
Defined.

(** X9 at work: a failed response shares its name with a successful one. *)
Lemma aggregate_counts_successes_witness :
  NoDup (ai_name <$> filter (λ r, success r = true)
           [response true "ok" "claude"; response false "" "claude";
            response true "fine" "gemini"]) ∧
  successful_reviews (aggregate [response true "ok" "claude"; response false "" "claude";
                                 response true "fine" "gemini"]) =
  length (filter (λ r, success r = true)
            [response true "ok" "claude"; response false "" "claude";
             response true "fine" "gemini"]).
Proof.
  assert (Hnd : NoDup (ai_name <$> filter (λ r, success r = true)
           [response true "ok" "claude"; response false "" "claude";
            response true "fine" "gemini"])).
  { apply (bool_decide_unpack _). vm_compute. exact I. }
  split; [exact Hnd|]. exact (aggregate_counts_successes _ Hnd).
Defined.

(** X10 at work: the same outputs in another order, one marked failed. *)
Lemma find_common_themes_outputs_witness :
  output <$> security_reviews ≡ₚ
    output <$> [response false "Nothing to add." "a";
                response true "Found a SECURITY hole in the login handler." "b";
                response true "security: inputs are not validated; Performance is fine." "c"] ∧
  find_common_themes ascii_lower security_reviews =
  find_common_themes ascii_lower
    [response false "Nothing to add." "a";
     response true "Found a SECURITY hole in the login handler." "b";
     response true "security: inputs are not validated; Performance is fine." "c"].
Proof.
  assert (Hperm : output <$> security_reviews ≡ₚ
    output <$> [response false "Nothing to add." "a";
                response true "Found a SECURITY hole in the login handler." "b";
                response true "security: inputs are not validated; Performance is fine." "c"]).
  { simpl. etrans; [apply Permutation_skip, Permutation_swap | apply Permutation_swap]. }
  split; [exact Hperm|].
  exact (find_common_themes_outputs ascii_lower _ _ Hperm).
Defined.

(** ** main.py: the reviewer filter *)








Section MainExit.
Variable rt : Runtime.
Variable generate : ReportArgs → string.

End MainExit.


(** ** main.py: the workflow as a whole *)

Lemma saved_to_print (m : Message) (w : World) :
  saved_to (console (print m w)) =
  saved_to (console w) ++
  match m with MsgSavedTo code_file => [code_file] | _ => [] end.
Proof.
  unfold saved_to, print; simpl. rewrite omap_app. f_equal. by destruct m.
Qed.

Lemma console_set_fs (fs' : FS) (w : World) : console (set_fs fs' w) = console w.
Proof. reflexivity. Qed.

Lemma print_diagnostics_world (printed : list Diagnostic) (w : World) :
  fs (foldl (λ w d, print (MsgDiagnostic d) w) w printed) = fs w ∧
  improve_calls (foldl (λ w d, print (MsgDiagnostic d) w) w printed) = improve_calls w ∧
  saved_to (console (foldl (λ w d, print (MsgDiagnostic d) w) w printed)) =
    saved_to (console w).
Proof.
  revert w. induction printed as [|d printed IH]; intros w; simpl; [done|].
  destruct (IH (print (MsgDiagnostic d) w)) as (-> & -> & ->).
  rewrite saved_to_print. simpl. by rewrite app_nil_r.
Qed.

Section WorkflowAnatomy.
Variable rt : Runtime.
Variable generate : ReportArgs → string.

Lemma write_file_None (path content : string) (fs0 fs1 : FS) :
  write_file rt path content fs0 = (None, fs1) → fs1 = <[path := content]> fs0.
Proof.
  unfold write_file. destruct (write_fault rt fs0 path content) as [[e|written e]|];
    by intros [= <-].
Qed.

Lemma report_phase_world prompt implementation review_results improvement_logs
    final_improved_code output_path enable_iteration w outcome w' :
  report_phase rt generate prompt implementation review_results improvement_logs
    final_improved_code output_path enable_iteration w = Normal outcome w' →
  ∃ args,
    outcome = Finished args improvement_logs ∧
    report_implementation args = implementation ∧
    report_reviews args = aggregate review_results ∧
    report_common_themes args = find_common_themes (str_lower rt) review_results ∧
    report_improvements args =
      (if enable_iteration then Some improvement_logs else None) ∧
    report_final_code args =
      (if enable_iteration
       then match final_improved_code with Some code => code | None => None end
       else None) ∧
    improve_calls w' = improve_calls w ∧
    saved_to (console w') = saved_to (console w).
Proof.
  unfold report_phase. intros H. eexists.
  destruct output_path as [path|]; [destruct (decide (path = ""))|].
  2:{ destruct (write_file rt path _ (fs _)) as [[e|] fs1]; [done|].
      injection H as <- <-. split; [reflexivity|]. simpl. repeat split.
      - by destruct (decide (improvement_logs = ∅)).
      - unfold saved_to. destruct (decide (improvement_logs = ∅)); simpl;
          rewrite ?omap_app; simpl; by rewrite ?app_nil_r. }
  all: injection H as <- <-; split; [reflexivity|]; simpl; repeat split;
    [by destruct (decide (improvement_logs = ∅))|];
    unfold saved_to; destruct (decide (improvement_logs = ∅)); simpl;
    rewrite ?omap_app; simpl; by rewrite ?app_nil_r.
Qed.


(** The anatomy of a run that reaches the report. *)
Lemma run_review_workflow_Finished prompt implementer_name reviewer_names context_files
    output_path config enable_iteration w args improvement_logs w' :
  run_review_workflow rt generate prompt implementer_name reviewer_names context_files
    output_path config enable_iteration w = Normal (Finished args improvement_logs) w' →
  ∃ reviewers self implementation context fs1,
    create_clients rt config reviewer_names = Ok reviewers ∧
    success implementation = true ∧
    report_implementation args = implementation ∧
    report_reviews args =
      aggregate (review_code rt self implementation reviewers prompt context fs1).1 ∧
    report_improvements args =
      (if enable_iteration then Some improvement_logs else None) ∧
    ((enable_iteration = true ∧
      (review_code rt self implementation reviewers prompt context fs1).1 ≠ [] ∧
      ∃ code_file w1 w2,
        improve_calls w1 = improve_calls w ∧
        saved_to (console w1) = saved_to (console w) ++ [code_file] ∧
        fs w1 = <[code_file := output implementation]> fs1 ∧
        improve_loop rt reviewers code_file prompt
          (review_code rt self implementation reviewers prompt context fs1).1 ∅ w1 =
          Normal improvement_logs w2 ∧
        report_final_code args = read_text (fs w2) code_file ∧
        improve_calls w' = improve_calls w2 ∧
        saved_to (console w') = saved_to (console w2)) ∨
     ((enable_iteration = false ∨
       (review_code rt self implementation reviewers prompt context fs1).1 = []) ∧
      improvement_logs = ∅ ∧ report_final_code args = None ∧
      improve_calls w' = improve_calls w ∧
      saved_to (console w') = saved_to (console w))).
Proof.
  unfold run_review_workflow.
  destruct (ai config !! implementer_name) as [entry|]; simpl; [|done].
  destruct (create_client rt implementer_name entry) as [implementer|]; simpl; [|done].
  destruct (create_clients rt config reviewer_names) as [reviewers|] eqn:Hcreate;
    simpl; [|done].
  set (context := match context_files with [] => "" | _ => _ end).
  destruct (implement rt implementer prompt context_files _) as [t implementation fs1| |];
    [|done..].
  destruct (success implementation) eqn:Hs; simpl; [|done].
  destruct (execution config !! "timeout_seconds") as [timeout|]; [|done].
  destruct (review_code rt (mkParallelReviewer timeout) implementation reviewers prompt
              context _) as [review_results printed] eqn:Hreview.
  simpl in Hreview.
  intros H. exists reviewers, (mkParallelReviewer timeout), implementation, context, fs1.
  rewrite Hreview. simpl.
  pose proof (print_diagnostics_world printed
    (print (MsgReviewing reviewer_names)
       (print (MsgImplemented implementation)
          (set_fs fs1 (print (MsgImplementing implementer_name) w))))) as (Hfs & Hcalls & Hsaved).
  assert (Hpre : saved_to (console
            (print (MsgReviewing reviewer_names)
               (print (MsgImplemented implementation)
                  (set_fs fs1 (print (MsgImplementing implementer_name) w))))) =
          saved_to (console w)).
  { unfold saved_to. simpl. rewrite !omap_app. simpl. by rewrite !app_nil_r. }
  rewrite Hpre in Hsaved. simpl in Hcalls, Hfs.
  destruct enable_iteration; simpl in H.
  - destruct (bool_decide (review_results = [])) eqn:Hnil; simpl in H.
    + apply bool_decide_eq_true in Hnil.
      apply report_phase_world in H
        as (args' & [= <- ->] & Hr0 & Hr1 & _ & Hr3 & Hr4 & Hr5 & Hr6).
      split; [done|]. split; [done|]. split; [done|]. split; [done|]. split; [done|].
      right. split; [by right|]. split; [done|]. split; [done|].
      rewrite Hr5, Hr6. split; [exact Hcalls|].
      rewrite saved_to_print. simpl. rewrite app_nil_r. exact Hsaved.
    + apply bool_decide_eq_false in Hnil.
      unfold improvement_phase in H.
      destruct (write_file rt _ _ _) as [[e|] fs2] eqn:Hwrite; [done|].
      apply write_file_None in Hwrite.
      destruct (improve_loop _ _ _ _ _ _ _) as [logs w2| |] eqn:Hloop; [|done..].
      apply report_phase_world in H
        as (args' & [= <- <-] & Hr0 & Hr1 & _ & Hr3 & Hr4 & Hr5 & Hr6).
      split; [done|]. split; [done|]. split; [done|]. split; [done|]. split; [done|].
      left. split; [done|]. split; [done|].
      eexists _, _, w2. split; [|split; [|split; [|split; [exact Hloop|]]]].
      * simpl. exact Hcalls.
      * rewrite saved_to_print, console_set_fs, !saved_to_print, Hsaved.
        rewrite !app_nil_r. reflexivity.
      * simpl. rewrite Hwrite. simpl. by rewrite Hfs.
      * split; [done|]. split; [done|]. done.
  - apply report_phase_world in H
      as (args' & [= <- ->] & Hr0 & Hr1 & _ & Hr3 & Hr4 & Hr5 & Hr6).
    split; [done|]. split; [done|]. split; [done|]. split; [done|]. split; [done|].
    right. split; [by left|]. split; [done|]. split; [done|].
    rewrite Hr5, Hr6. split; [exact Hcalls|].
    rewrite saved_to_print. simpl. rewrite app_nil_r. exact Hsaved.
Qed.
End WorkflowAnatomy.

Section WorkflowProperties2.
Variable rt : Runtime.
Variable generate : ReportArgs → string.

Lemma create_clients_names (cfg : Config) (names : list string) clients :
  create_clients rt cfg names = Ok clients → name <$> clients = names.
Proof.
  revert clients. induction names as [|n names IH]; intros clients H; simpl in H.
  - by injection H as <-.
  - destruct (ai cfg !! n) as [entry|]; [|done]. simpl in H.
    pose proof (create_client_spec rt n entry) as Hc.
    destruct (create_client rt n entry) as [c|e]; [|done]. simpl in H.
    destruct (create_clients rt cfg names) as [cs|e]; [|done]. simpl in H.
    injection H as <-. destruct Hc as (Hn & _). rewrite fmap_cons, Hn.
    f_equal. by apply IH.
Qed.

Lemma review_code_names_sublist self implementation reviewers original_prompt context fs :
  sublist (ai_name <$> (review_code rt self implementation reviewers
                          original_prompt context fs).1)
          (name <$> reviewers).
Proof.
  destruct (review_code_result rt self implementation reviewers original_prompt context fs)
    as [-> | ->]; [apply sublist_nil_l|].
  induction reviewers as [|r rs IH]; simpl; [constructor|].
  destruct (successful_response _) as [a|] eqn:E; simpl.
  - apply successful_response_review in E as (-> & _). by constructor.
  - by constructor.
Qed.

Lemma review_code_all_successful self implementation reviewers original_prompt context fs :
  filter (λ r, success r = true)
    (review_code rt self implementation reviewers original_prompt context fs).1 =
  (review_code rt self implementation reviewers original_prompt context fs).1.
Proof.
  assert (H : Forall (λ r, success r = true)
    (review_code rt self implementation reviewers original_prompt context fs).1).
  { apply Forall_forall. intros a Ha.
    by apply review_code_elem in Ha as (_ & _ & _ & ? & _). }
  by apply filter_Forall_id.
Qed.

(** X15. The totals of the report.  In a run that reaches the report,
    [total_reviews] is the number of reviews that succeeded (the
    aggregator is fed the successful reviews only), so it is at most the
    number of reviewers; and when the reviewer names are pairwise
    distinct, [successful_reviews] equals [total_reviews]: the summary
    then reads k/k whatever number of reviewers failed. *)
Theorem workflow_report_totals (prompt implementer_name : string)
    (reviewer_names context_files : list string) (output_path : option string)
    (config : Config) (enable_iteration : bool) (w : World)
    (args : ReportArgs) (improvement_logs : gmap string string) (w' : World) :
  run_review_workflow rt generate prompt implementer_name reviewer_names context_files
    output_path config enable_iteration w = Normal (Finished args improvement_logs) w' →
  total_reviews (report_reviews args) ≤ length reviewer_names ∧
  (NoDup reviewer_names →
   successful_reviews (report_reviews args) = total_reviews (report_reviews args)).
Proof.
  intros H. apply run_review_workflow_Finished in H
    as (reviewers & self & implementation & context & fs1 & Hcreate & _ & _ & Hrep & _).
  rewrite Hrep. unfold aggregate; simpl.
  pose proof (review_code_names_sublist self implementation reviewers prompt context fs1)
    as Hsub.
  rewrite (create_clients_names _ _ _ Hcreate) in Hsub. split.
  - apply sublist_length in Hsub. by rewrite length_fmap in Hsub.
  - intros Hnd. rewrite aggregate_loop_size_NoDup; rewrite review_code_all_successful.
    + done.
    + by eapply sublist_NoDup.
Qed.

(** X16. No improvement phase without reviews: in a run that reaches the
    report with iteration disabled, or with no successful review (all
    failed, or the batch timed out), no code file is created,
    [improve_file] is never called, the improvement log is empty and the
    report carries no final code. *)
Theorem workflow_without_improvement (prompt implementer_name : string)
    (reviewer_names context_files : list string) (output_path : option string)
    (config : Config) (enable_iteration : bool) (w : World)
    (args : ReportArgs) (improvement_logs : gmap string string) (w' : World) :
  run_review_workflow rt generate prompt implementer_name reviewer_names context_files
    output_path config enable_iteration w = Normal (Finished args improvement_logs) w' →
  enable_iteration = false ∨ total_reviews (report_reviews args) = 0 →
  improvement_logs = ∅ ∧
  report_final_code args = None ∧
  report_improvements args = (if enable_iteration then Some ∅ else None) ∧
  improve_calls w' = improve_calls w ∧
  saved_to (console w') = saved_to (console w).
Proof.
  intros H Hno. apply run_review_workflow_Finished in H
    as (reviewers & self & implementation & context & fs1 & _ & _ & _ & Hrep & Himp & Hcases).
  destruct Hcases as [(Hit & Hne & _) | (_ & -> & Hfinal & Hcalls & Hsaved)].
  - destruct Hno as [Hno | Hno]; [congruence|].
    rewrite Hrep in Hno. simpl in Hno. by apply nil_length_inv in Hno.
  - by rewrite Himp.
Qed.

End WorkflowProperties2.

Section CodexImplementer.
Variable rt : Runtime.
Variable generate : ReportArgs → string.

(** X18. A Codex implementer never gets anywhere: when the lower-cased
    implementer name is [codex], the workflow returns at the client
    initialisation or right after the implementation phase, without
    starting a process, touching a file or calling a reviewer. *)
Theorem codex_implementer_stops (prompt implementer_name : string)
    (reviewer_names context_files : list string) (output_path : option string)
    (config : Config) (enable_iteration : bool) (w : World) :
  client_class (str_lower rt implementer_name) = Some CodexClient →
  ∃ outcome w',
    run_review_workflow rt generate prompt implementer_name reviewer_names context_files
      output_path config enable_iteration w = Normal outcome w' ∧
    (outcome = InitFailed ∨ outcome = ImplementationFailed) ∧
    fs w' = fs w ∧ improve_calls w' = improve_calls w ∧
    saved_to (console w') = saved_to (console w).
Proof.
  intros Hcodex. unfold run_review_workflow.
  destruct (ai config !! implementer_name) as [entry|]; simpl.
  2:{ eexists _, _. split; [done|]. split; [by left|]. split; [done|]. split; [done|].
      rewrite saved_to_print. simpl. by rewrite app_nil_r. }
  pose proof (create_client_spec rt implementer_name entry) as Hc.
  destruct (create_client rt implementer_name entry) as [implementer|e]; simpl.
  2:{ eexists _, _. split; [done|]. split; [by left|]. split; [done|]. split; [done|].
      rewrite saved_to_print. simpl. by rewrite app_nil_r. }
  destruct Hc as (_ & _ & Hcls). rewrite Hcodex in Hcls. injection Hcls as Hcls.
  destruct (create_clients rt config reviewer_names) as [reviewers|e]; simpl.
  2:{ eexists _, _. split; [done|]. split; [by left|]. split; [done|]. split; [done|].
      rewrite saved_to_print. simpl. by rewrite app_nil_r. }
  unfold implement. rewrite <- Hcls. simpl.
  eexists _, _. split; [done|]. split; [by right|]. split; [done|]. split; [done|].
  rewrite saved_to_print, console_set_fs, saved_to_print. simpl. by rewrite !app_nil_r.
Qed.
End CodexImplementer.

(** X15 at work, on the run where every call succeeds. *)
Lemma workflow_report_totals_witness :
  ∃ args improvement_logs w',
    run_review_workflow (scenario_runtime passive_exec) (λ _, "report") "fib" "claude"
      ["claude"] [] None scenario_config true empty_world =
      Normal (Finished args improvement_logs) w' ∧
    total_reviews (report_reviews args) ≤ length ["claude"] ∧
    (NoDup ["claude"] →
     successful_reviews (report_reviews args) = total_reviews (report_reviews args)).
Proof.
  eexists _, _, _.
  assert (Hrun : ∀ x, x = run_review_workflow (scenario_runtime passive_exec)
            (λ _, "report") "fib" "claude" ["claude"] [] None scenario_config true
            empty_world →
          run_review_workflow (scenario_runtime passive_exec)
            (λ _, "report") "fib" "claude" ["claude"] [] None scenario_config true
            empty_world = x) by done.
  split; [apply Hrun; vm_compute; reflexivity|].
  eapply (workflow_report_totals (scenario_runtime passive_exec) (λ _, "report") "fib"
           "claude" ["claude"] [] None scenario_config true empty_world).
  vm_compute. reflexivity.
Defined.

(** X16 at work: the same run with iteration disabled. *)
Lemma workflow_without_improvement_witness :
  ∃ args improvement_logs w',
    run_review_workflow (scenario_runtime passive_exec) (λ _, "report") "fib" "claude"
      ["claude"] [] None scenario_config false empty_world =
      Normal (Finished args improvement_logs) w' ∧
    improvement_logs = ∅ ∧
    report_final_code args = None ∧
    report_improvements args = None ∧
    improve_calls w' = improve_calls empty_world ∧
    saved_to (console w') = saved_to (console empty_world).
Proof.
  eexists _, _, _.
  assert (Hrun : ∀ x, x = run_review_workflow (scenario_runtime passive_exec)
            (λ _, "report") "fib" "claude" ["claude"] [] None scenario_config false
            empty_world →
          run_review_workflow (scenario_runtime passive_exec)
            (λ _, "report") "fib" "claude" ["claude"] [] None scenario_config false
            empty_world = x) by done.
  split; [apply Hrun; vm_compute; reflexivity|].
  eapply (workflow_without_improvement (scenario_runtime passive_exec) (λ _, "report")
           "fib" "claude" ["claude"] [] None scenario_config false empty_world).
  - vm_compute. reflexivity.
  - by left.
Defined.


(** X18 at work: codex is asked to implement. *)
Lemma codex_implementer_stops_witness :
  client_class (str_lower (scenario_runtime passive_exec) "codex") = Some CodexClient ∧
  ∃ outcome w',
    run_review_workflow (scenario_runtime passive_exec) (λ _, "report") "fib" "codex"
      ["claude"] [] None scenario_config true empty_world = Normal outcome w' ∧
    (outcome = InitFailed ∨ outcome = ImplementationFailed) ∧
    fs w' = fs empty_world ∧ improve_calls w' = improve_calls empty_world ∧
    saved_to (console w') = saved_to (console empty_world).
Proof.
  assert (H : client_class (str_lower (scenario_runtime passive_exec) "codex") =
              Some CodexClient) by (vm_compute; reflexivity).
  split; [exact H|].
  exact (codex_implementer_stops (scenario_runtime passive_exec) (λ _, "report") "fib"
           "codex" ["claude"] [] None scenario_config true empty_world H).
Defined.

(** ** reviewer.py: the timeout *)

Lemma wait_for_monotone (tasks : list (Awaited AIResponse)) (timeout timeout' : Z) rs :
  (timeout ≤ timeout')%Z →
  wait_for tasks timeout = Some rs → wait_for tasks timeout' = Some rs.
Proof.
  intros Hle. unfold wait_for.
  destruct (decide (timeout ≤ 0)%Z) as [Hneg|Hpos].
  - destruct tasks; [|done]. intros [= <-].
    destruct (decide (timeout' ≤ 0)%Z); [done|]. simpl.
    by rewrite decide_True by lia.
  - rewrite decide_False by lia.
    destruct (gather tasks) as [[t rs']|]; [|done].
    destruct (decide (t ≤ 1000 * timeout)%Z); [|done]. intros [= <-].
    by rewrite decide_True by lia.
Qed.

Section TimeoutMonotone.
Variable rt : Runtime.

(** X19. A longer timeout never loses a review: when [review_code]
    with timeout [T] did not report the batch timeout, it returns and
    prints exactly the same with every timeout [T' >= T]. *)
Theorem review_code_longer_timeout (timeout timeout' : Z) (implementation : AIResponse)
    (reviewers : list BaseAIClient) (original_prompt context : string) (fs : FS) :
  (timeout ≤ timeout')%Z →
  (review_code rt (mkParallelReviewer timeout) implementation reviewers
     original_prompt context fs).2 ≠ [ReviewTimedOut timeout] →
  review_code rt (mkParallelReviewer timeout') implementation reviewers
    original_prompt context fs =
  review_code rt (mkParallelReviewer timeout) implementation reviewers
    original_prompt context fs.
Proof.
  intros Hle Hno. unfold review_code in *. simpl in *.
  destruct (wait_for _ timeout) as [rs|] eqn:E; [|done].
  by rewrite (wait_for_monotone _ _ _ _ Hle E).
Qed.
End TimeoutMonotone.

(** X19 at work: five seconds were enough, so are ten. *)
Lemma review_code_longer_timeout_witness :
  (5 ≤ 10)%Z ∧
  (review_code (scenario_runtime slow_claude_exec) (mkParallelReviewer 5)
     implementation_done settling_reviewers "fib" "" ∅).2 ≠ [ReviewTimedOut 5] ∧
  review_code (scenario_runtime slow_claude_exec) (mkParallelReviewer 10)
    implementation_done settling_reviewers "fib" "" ∅ =
  review_code (scenario_runtime slow_claude_exec) (mkParallelReviewer 5)
    implementation_done settling_reviewers "fib" "" ∅.
Proof.
  assert (H1 : (5 ≤ 10)%Z) by lia.
  assert (H2 : (review_code (scenario_runtime slow_claude_exec) (mkParallelReviewer 5)
     implementation_done settling_reviewers "fib" "" ∅).2 ≠ [ReviewTimedOut 5]).
  { vm_compute. discriminate. }
  split; [exact H1|]. split; [exact H2|].
  exact (review_code_longer_timeout (scenario_runtime slow_claude_exec) 5 10
           implementation_done settling_reviewers "fib" "" ∅ H1 H2).
Defined.

(** ** ai_clients.py: the context text *)

Lemma string_app_assoc (s1 s2 s3 : string) : (s1 +:+ s2) +:+ s3 = s1 +:+ s2 +:+ s3.
Proof. induction s1 as [|a s1 IH]; string_simpl; [done|]. by rewrite IH. Qed.

Lemma str_in_app_l (needle pre hay : string) :
  str_in needle hay = true → str_in needle (pre +:+ hay) = true.
Proof.
  rewrite !str_in_spec. intros (a & b & ->).
  exists (pre +:+ a), b. by rewrite !string_app_assoc.
Qed.

Lemma str_in_app_r (needle hay post : string) :
  str_in needle hay = true → str_in needle (hay +:+ post) = true.
Proof.
  rewrite !str_in_spec. intros (a & b & ->).
  exists a, (b +:+ post). by rewrite !string_app_assoc.
Qed.

Lemma concat_cons (sep x : string) (l : list string) :
  l ≠ [] → String.concat sep (x :: l) = x +:+ sep +:+ String.concat sep l.
Proof. by destruct l. Qed.

Lemma str_in_concat (needle sep part : string) (parts : list string) :
  part ∈ parts → str_in needle part = true →
  str_in needle (String.concat sep parts) = true.
Proof.
  intros Hin Hpart. induction parts as [|p parts IH]; [by apply elem_of_nil in Hin|].
  destruct parts as [|q parts].
  - apply elem_of_cons in Hin as [->|Hin]; [done | by apply elem_of_nil in Hin].
  - rewrite concat_cons by done. apply elem_of_cons in Hin as [->|Hin].
    + by apply str_in_app_r.
    + apply str_in_app_l, str_in_app_l. by apply IH.
Qed.

Section BuildContext.
Variable rt : Runtime.

(** X20. [_build_context] never fails on a file it cannot read: for
    every non-empty list of paths the text starts with the header line,
    and every listed path occurs in it, readable or not.  The content of
    every readable file occurs in it as text mode reads it, with each
    line end turned into a line feed; for a file that is missing or is
    not UTF-8 the message of the exception occurs instead.  For the
    empty list the text is empty. *)
Theorem build_context_mentions (context_files : list string) (fs : FS) :
  (context_files = [] → _build_context rt context_files fs = "") ∧
  (context_files ≠ [] →
   startswith "相关上下文文件：" (_build_context rt context_files fs) = true ∧
   ∀ file_path, file_path ∈ context_files →
     str_in file_path (_build_context rt context_files fs) = true ∧
     (∀ content, read_text fs file_path = Some content →
        str_in content (_build_context rt context_files fs) = true) ∧
     (read_text fs file_path = None →
        str_in (strerror rt fs file_path) (_build_context rt context_files fs) = true)).
Proof.
  split; [by intros ->|]. intros Hne.
  destruct context_files as [|f files]; [done|]. unfold _build_context.
  set (part := λ file_path : string, match read_text fs file_path with
                                     | Some content => _
                                     | None => _
                                     end).
  split.
  - rewrite concat_cons by done. apply startswith_spec.
    eexists. string_simpl. reflexivity.
  - intros file_path Hin.
    assert (Hpart : part file_path ∈
              "相关上下文文件：
" :: map part (f :: files)).
    { right. apply list_elem_of_In, in_map. by apply list_elem_of_In. }
    split; [|split].
    + eapply str_in_concat; [exact Hpart|]. unfold part.
      apply str_in_spec. destruct (read_text fs file_path); eexists _, _; reflexivity.
    + intros content Hc. eapply str_in_concat; [exact Hpart|]. unfold part.
      rewrite Hc. apply str_in_spec.
      exists ("
--- " +:+ file_path +:+ " ---
"), "
". by rewrite !string_app_assoc.
    + intros Hc. eapply str_in_concat; [exact Hpart|]. unfold part.
      rewrite Hc. apply str_in_spec.
      exists ("
--- " +:+ file_path +:+ " (读取失败: "), ") ---
". by rewrite !string_app_assoc.
Qed.
End BuildContext.

(** X20 at work: a file with a CR LF line end, a file that is not UTF-8
    and a missing file. *)
Lemma build_context_mentions_witness :
  read_text crlf_files "a.py" = Some "x = 1
y = 2" ∧
  read_text crlf_files "b.bin" = None ∧
  str_in "x = 1
y = 2" (_build_context (scenario_runtime passive_exec)
          ["a.py"; "b.bin"; "missing.py"] crlf_files) = true ∧
  str_in "b.bin" (_build_context (scenario_runtime passive_exec)
                    ["a.py"; "b.bin"; "missing.py"] crlf_files) = true ∧
  str_in "[Errno 2] No such file or directory: 'missing.py'"
    (_build_context (scenario_runtime passive_exec)
       ["a.py"; "b.bin"; "missing.py"] crlf_files) = true.
Proof.
  assert (Hne : ["a.py"; "b.bin"; "missing.py"] ≠ []) by done.
  assert (Ha : "a.py" ∈ ["a.py"; "b.bin"; "missing.py"]) by (by left).
  assert (Hb : "b.bin" ∈ ["a.py"; "b.bin"; "missing.py"]) by (right; by left).
  assert (Hm : "missing.py" ∈ ["a.py"; "b.bin"; "missing.py"])
    by (right; right; by left).
  assert (Hra : read_text crlf_files "a.py" = Some "x = 1
y = 2") by (vm_compute; reflexivity).
  assert (Hrb : read_text crlf_files "b.bin" = None) by (vm_compute; reflexivity).
  assert (Hrm : read_text crlf_files "missing.py" = None) by (vm_compute; reflexivity).
  split; [exact Hra|]. split; [exact Hrb|].
  pose proof (proj2 (build_context_mentions (scenario_runtime passive_exec)
                       ["a.py"; "b.bin"; "missing.py"] crlf_files) Hne)
    as [_ Hall].
  split; [exact (proj1 (proj2 (Hall "a.py" Ha)) _ Hra)|].
  split; [exact (proj1 (Hall "b.bin" Hb))|].
  exact (proj2 (proj2 (Hall "missing.py" Hm)) Hrm).
Defined.
